(** * tev: the transform-and-statistics pipeline of [ImageCanvas.cpp]

    A shallow embedding of the CPU side of the image canvas: the per-pixel
    operators ([applyMetric], [applyPostProcessing], [applyTonemap]), the
    channel compositor ([channelsFromImages]), the flat pixel export
    ([getHdrImageData]), the statistics engine ([computeCanvasStatistics])
    and the statistics cache ([canvasStatistics]).

    Samples are IEEE-754 binary32 numbers.  They are modelled with the
    executable specification of floating-point arithmetic of the standard
    library ([spec_float], round-to-nearest-even) at precision 24 and
    maximal exponent 128. *)

From Stdlib Require Import ZArith Lia SpecFloat Ascii String.
From stdpp Require Import base numbers list list_numbers strings pretty gmap.

Local Open Scope Z_scope.

(** ** binary32 and binary64 arithmetic *)

Module F32.

Definition float := spec_float.

Definition prec : Z := 24.
Definition emax : Z := 128.

Definition add : float -> float -> float := SFadd prec emax.
Definition sub : float -> float -> float := SFsub prec emax.
Definition mul : float -> float -> float := SFmul prec emax.
Definition div : float -> float -> float := SFdiv prec emax.
Definition sqrt : float -> float := SFsqrt prec emax.
Definition opp : float -> float := SFopp.
Definition abs : float -> float := SFabs.

(** The comparison operators of C++: every comparison with a NaN is false. *)
Definition ltb : float -> float -> bool := SFltb.
Definition eqb : float -> float -> bool := SFeqb.

Definition isnan (x : float) : bool :=
  match x with S754_nan => true | _ => false end.

Definition is_finite (x : float) : bool :=
  match x with S754_zero _ | S754_finite _ _ _ => true | _ => false end.

(** Conversion of an integer, [(float) n]. *)
Definition of_Z (n : Z) : float := binary_normalize prec emax n 0 false.

Definition zero : float := S754_zero false.
Definition one : float := of_Z 1.
Definition infinity : float := S754_infinity false.
Definition neg_infinity : float := S754_infinity true.
Definition nan : float := S754_nan.

(** A decimal literal [n / d] with [n] and [d] exactly representable: the
    correctly rounded quotient is the float nearest to the literal. *)
Definition lit (n d : Z) : float := div (of_Z n) (of_Z d).

(** [std::min (a, b)] is [(b < a) ? b : a] and [std::max (a, b)] is
    [(a < b) ? b : a]. *)
Definition min (a b : float) : float := if ltb b a then b else a.
Definition max (a b : float) : float := if ltb a b then b else a.

(** [(int) x] truncates toward zero.  C++ leaves the conversion undefined
    for NaN, the infinities and values outside the range of [int]; [undef]
    is what the platform yields there. *)
Definition to_int (undef : Z) (x : float) : Z :=
  match x with
  | S754_zero _ => 0
  | S754_finite s m e =>
      let mag := match e with
                 | Zneg p => Z.shiftr (Zpos m) (Zpos p)
                 | _ => Z.shiftl (Zpos m) e
                 end in
      let r := if s then - mag else mag in
      if (Z.leb (-2147483648) r && Z.leb r 2147483647)%bool then r else undef
  | _ => undef
  end.

End F32.

Module F64.

Definition prec : Z := 53.
Definition emax : Z := 1024.

Definition add : spec_float -> spec_float -> spec_float := SFadd prec emax.
Definition mul : spec_float -> spec_float -> spec_float := SFmul prec emax.
Definition of_Z (n : Z) : spec_float := binary_normalize prec emax n 0 false.
Definition lit (n d : Z) : spec_float := SFdiv prec emax (of_Z n) (of_Z d).

(** Widening a binary32 value is exact; it only renormalises the mantissa. *)
Definition of_float (x : F32.float) : spec_float :=
  match x with
  | S754_finite s m e => binary_round prec emax s m e
  | _ => x
  end.

(** Narrowing rounds to the nearest binary32 value. *)
Definition to_float (x : spec_float) : F32.float :=
  match x with
  | S754_finite s m e => binary_round F32.prec F32.emax s m e
  | _ => x
  end.

End F64.

Abbreviation float := F32.float.

#[global] Instance float_inhabited : Inhabited float := populate F32.zero.

(** Modelled from the spec: [clamp] of [Common.h], which is not among the
    sources at hand; it bounds a value from above by [hi], then from below by
    [lo], with the comparisons of [std::min] and [std::max]. *)
Definition clamp (v lo hi : float) : float := F32.max (F32.min v hi) lo.

Definition clampZ (v lo hi : Z) : Z := Z.max (Z.min v hi) lo.

(** ** Pixel operators *)

Inductive EMetric :=
  | Error | AbsoluteError | SquaredError
  | RelativeAbsoluteError | RelativeSquaredError | Division.

Inductive EPostProcessing := Identity | Square | Clip10 | Clip100.

Inductive ETonemap :=
  | SRGB | Gamma | FalseColor | PositiveNegative | Complex | Vector
  | FalseColorPPG.

Definition applyMetric (image reference : float) (metric : EMetric) : float :=
  let diff := F32.sub image reference in
  match metric with
  | Error => diff
  | AbsoluteError => F32.abs diff
  | SquaredError => F32.mul diff diff
  | RelativeAbsoluteError =>
      F32.div (F32.abs diff) (F32.add reference (F32.lit 1 1000))
  | RelativeSquaredError =>
      F32.div (F32.mul diff diff)
              (F32.add (F32.mul reference reference) (F32.lit 1 1000))
  | Division =>
      F32.div (F32.add image (F32.lit 1 1000))
              (F32.add reference (F32.lit 1 1000))
  end.

Definition applyPostProcessing (image : float) (postProcessing : EPostProcessing)
  : float :=
  match postProcessing with
  | Identity => image
  | Square => F32.mul image image
  | Clip10 => F32.min image (F32.of_Z 10)
  | Clip100 => F32.min image (F32.of_Z 100)
  end.

(** *** Tonemapping *)

Record Vector3f := Vec3 { vx : float; vy : float; vz : float }.

Module V3.
Definition zero : Vector3f := Vec3 F32.zero F32.zero F32.zero.
Definition ones : Vector3f := Vec3 F32.one F32.one F32.one.

Definition map2 (f : float -> float -> float) (a b : Vector3f) : Vector3f :=
  Vec3 (f (vx a) (vx b)) (f (vy a) (vy b)) (f (vz a) (vz b)).

Definition cwiseMin : Vector3f -> Vector3f -> Vector3f := map2 F32.min.
Definition cwiseMax : Vector3f -> Vector3f -> Vector3f := map2 F32.max.

(** Eigen unrolls the reduction of a three-vector as [x + (y + z)]. *)
Definition sum (a : Vector3f) : float :=
  F32.add (vx a) (F32.add (vy a) (vz a)).
Definition mean (a : Vector3f) : float := F32.div (sum a) (F32.of_Z 3).
Definition norm (a : Vector3f) : float :=
  F32.sqrt (sum (map2 F32.mul a a)).
Definition scale (k : float) (a : Vector3f) : Vector3f :=
  Vec3 (F32.mul k (vx a)) (F32.mul k (vy a)) (F32.mul k (vz a)).
Definition quot (a : Vector3f) (k : float) : Vector3f :=
  Vec3 (F32.div (vx a) k) (F32.div (vy a) k) (F32.div (vz a) k).
End V3.

Section Tonemap.

(** The mathematical library and the helpers of [Common.h] and
    [FalseColor.h] are not part of the sources at hand: [powf] and [log2f]
    stand for [pow] and [log2] on [float], [toSRGB] for the transfer
    function of [Common.h], [turbo] for the table [colormap::turbo ()], and
    [undef] for the result of an out-of-range conversion to [int]. *)
Variable powf : float -> float -> float.
Variable log2f : float -> float.
Variable toSRGB : float -> float.
Variable turbo : list float.
Variable undef : Z.

(** The lambda [falseColor] of the [FalseColor] case. *)
Definition falseColor (linear : float) : Vector3f :=
  let fcCount := Z.quot (Z.of_nat (length turbo)) 4 in
  let r := clamp (F32.mul linear (F32.of_Z fcCount)) (F32.of_Z 0)
                 (F32.of_Z (fcCount - 1)) in
  let ri := F32.to_int undef r in
  let start0 := 4 * ri in
  let start1 := 4 * (if Z.eqb ri (fcCount - 1) then ri else ri + 1) in
  let alpha := F32.sub r (F32.of_Z ri) in
  let fcd (k : Z) : float := turbo !!! Z.to_nat k in
  let v0 := Vec3 (fcd start0) (fcd (start0 + 1)) (fcd (start0 + 2)) in
  let v1 := Vec3 (fcd start1) (fcd (start1 + 1)) (fcd (start1 + 2)) in
  V3.map2 F32.add (V3.scale alpha v1)
                  (V3.scale (F32.sub (F32.of_Z 1) alpha) v0).

(** The lambda [falseColor] of the [FalseColorPPG] case: a four-segment
    ramp.  The thresholds 0.25, 0.5 and 0.75 are exact in binary32. *)
Definition falseColorPPG (v : float) : Vector3f :=
  let v := clamp v F32.zero F32.one in
  if F32.ltb v (F32.lit 1 4) then
    Vec3 F32.zero (F32.mul (F32.of_Z 4) v) F32.one
  else if F32.ltb v (F32.lit 1 2) then
    Vec3 F32.zero F32.one
         (F32.add F32.one (F32.mul (F32.of_Z 4) (F32.sub (F32.lit 1 4) v)))
  else if F32.ltb v (F32.lit 3 4) then
    Vec3 (F32.mul (F32.of_Z 4) (F32.sub v (F32.lit 1 2))) F32.one F32.zero
  else
    Vec3 F32.one
         (F32.add F32.one (F32.mul (F32.of_Z 4) (F32.sub (F32.lit 3 4) v)))
         F32.zero.

(** The body of [case ETonemap::FalseColorPPG]. *)
Definition caseFalseColorPPG (value : Vector3f) : Vector3f :=
  let grayScale := powf (vx value) (F32.div F32.one (F32.lit 22 10)) in
  falseColorPPG grayScale.

(** [toSRGB (0.5 * (1.0 + a))]: the argument is computed in double
    precision and narrowed when passed. *)
Definition axisToSRGB (a : float) : float :=
  toSRGB (F64.to_float
            (F64.mul (F64.lit 1 2) (F64.add (F64.of_Z 1) (F64.of_float a)))).

(** What the [Vector] case assigns to [result] for a vector of nonzero
    norm. *)
Definition vectorAssigned (value : Vector3f) : Vector3f :=
  let tmpvalue := V3.quot value (V3.norm value) in
  Vec3 (axisToSRGB (vx tmpvalue)) (axisToSRGB (vy tmpvalue))
       (axisToSRGB (vz tmpvalue)).

(** The value assigned to [result] by the switch, before the final clamp.
    The [Vector] case returns early for a vector of norm zero; otherwise it
    assigns [result] and, having no [break], runs on into the
    [FalseColorPPG] case, which assigns [result] again. *)
Definition tonemapSwitch (value : Vector3f) (gamma : float)
  (tonemap : ETonemap) : Vector3f :=
  match tonemap with
  | SRGB => Vec3 (toSRGB (vx value)) (toSRGB (vy value)) (toSRGB (vz value))
  | Gamma =>
      let g := F32.div (F32.of_Z 1) gamma in
      Vec3 (powf (vx value) g) (powf (vy value) g) (powf (vz value) g)
  | FalseColor =>
      let v := F32.add
                 (F32.div (log2f (F32.add (V3.mean value) (F32.lit 1 32)))
                          (F32.of_Z 10))
                 (F32.lit 1 2) in
      falseColor v
  | PositiveNegative =>
      Vec3 (F32.mul (F32.opp (F32.of_Z 2)) (V3.mean (V3.cwiseMin value V3.zero)))
           (F32.mul (F32.of_Z 2) (V3.mean (V3.cwiseMax value V3.zero)))
           F32.zero
  | Complex => V3.zero
  | Vector =>
      if F32.eqb (V3.norm value) (F32.of_Z 0) then value
      else
        let result := vectorAssigned value in
        let result := caseFalseColorPPG value in
        result
  | FalseColorPPG => caseFalseColorPPG value
  end.

Definition applyTonemap (value : Vector3f) (gamma : float)
  (tonemap : ETonemap) : Vector3f :=
  V3.cwiseMin (V3.cwiseMax (tonemapSwitch value gamma tonemap) V3.zero) V3.ones.

End Tonemap.

(** ** Channels and images *)

(** Modelled from the spec: [toUpper] and [join] of [Common.h], which is not
    among the sources at hand; [toUpper] raises the ASCII letters of a name
    and [join] concatenates names with a separator between them. *)
Definition toUpperAscii (c : ascii) : ascii :=
  let n := nat_of_ascii c in
  if (Nat.leb 97 n && Nat.leb n 122)%bool then ascii_of_nat (n - 32)%nat else c.

Fixpoint toUpper (s : string) : string :=
  match s with
  | EmptyString => EmptyString
  | String c r => String (toUpperAscii c) (toUpper r)
  end.

Fixpoint join (components : list string) (delim : string) : string :=
  match components with
  | [] => EmptyString
  | [s] => s
  | s :: rest => s +:+ delim +:+ join rest delim
  end.

Module Channel.

(** Modelled from the spec: the class [Channel] of [Channel.h], which is not
    among the sources at hand: a named two-dimensional grid of samples stored
    row by row, addressable by flat index or by (x, y).  A read outside the
    grid yields 0, which is how missing reference data degrades to a zero
    reference value. *)
Record t := make {
  name : string;
  cols : Z;
  rows : Z;
  data : list float
}.

(** [Channel (name, size)]: a grid of the given size.  Its cells hold no
    meaningful value until written; they are taken to be 0. *)
Definition create (name : string) (size : Z * Z) : t :=
  make name (fst size) (snd size)
       (replicate (Z.to_nat (fst size * snd size)) F32.zero).

Definition count (c : t) : Z := cols c * rows c.

(** [eval (DenseIndex)]. *)
Definition eval (c : t) (index : Z) : float :=
  if Z.leb (count c) index then F32.zero else data c !!! Z.to_nat index.

(** [eval (Vector2i)]. *)
Definition evalAt (c : t) (index : Z * Z) : float :=
  let '(x, y) := index in
  if (Z.ltb x 0 || Z.leb (cols c) x || Z.ltb y 0 || Z.leb (rows c) y)%bool
  then F32.zero
  else data c !!! Z.to_nat (x + y * cols c).

(** [at (DenseIndex) = v]. *)
Definition set (c : t) (index : Z) (v : float) : t :=
  make (name c) (cols c) (rows c) (<[Z.to_nat index := v]> (data c)).

(** [at (Vector2i) = v]. *)
Definition setAt (c : t) (index : Z * Z) (v : float) : t :=
  set c (fst index + snd index * cols c) v.

Fixpoint has_dot (s : string) : bool :=
  match s with
  | EmptyString => false
  | String c r => if Ascii.eqb c "."%char then true else has_dot r
  end.

(** Modelled from the spec: [Channel::tail] of [Channel.cpp], which is not
    among the sources at hand: the part of a channel name after its last
    dot, the group-prefix separator. *)
Fixpoint tail (channel : string) : string :=
  match channel with
  | EmptyString => EmptyString
  | String c r =>
      if has_dot r then tail r
      else if Ascii.eqb c "."%char then r else channel
  end.

End Channel.

Module Image.

(** Modelled from the spec: the class [Image] of [Image.h], which is not
    among the sources at hand: an identified collection of channels of one
    pixel size; [channelsInGroup] lists the channel names of a group and
    [channel] finds a channel by name (a null pointer when there is none). *)
Record t := make {
  id : Z;
  size : Z * Z;
  channelsInGroup : string -> list string;
  channel : string -> option Channel.t
}.

Definition count (i : t) : Z := fst (size i) * snd (size i).

End Image.

(** ** The channel compositor *)

(** [for (y = 0; y < size.y; ++y) for (x = 0; x < size.x; ++x)
      c.at ({x, y}) = f x y]. *)
Definition forEachPixel (size : Z * Z) (f : Z -> Z -> float) (c : Channel.t)
  : Channel.t :=
  foldl (fun c y =>
           foldl (fun c x => Channel.setAt c (x, y) (f x y)) c (seqZ 0 (fst size)))
        c (seqZ 0 (snd size)).

Definition isAlphaName (c : Channel.t) : bool := String.eqb (Channel.name c) "A".

(** The body of the parallel loop of [channelsFromImages] when there is no
    reference, for the output channel [result_i] and its channel name.  A
    channel name that the image does not resolve yields a null pointer,
    which [chan->count ()] dereferences: [None]. *)
Definition compositePlain (image : Image.t) (postProcessing : EPostProcessing)
  (result_i : Channel.t) (channelName : string) : option Channel.t :=
  chan ← Image.channel image channelName;
  Some (foldl (fun r j =>
                 Channel.set r j
                   (applyPostProcessing (Channel.eval chan j) postProcessing))
              result_i (seqZ 0 (Channel.count chan))).

Definition hasPixels (size : Z * Z) : bool :=
  (Z.ltb 0 (fst size) && Z.ltb 0 (snd size))%bool.

(** The body of the parallel loop of [channelsFromImages] when there is a
    reference; [size], [offset] and [referenceChannels] are computed once
    before the loop.  The channel pointers are dereferenced inside the pixel
    loops only, so a null pointer is harmless for an image without
    pixels. *)
Definition compositeWithReference (image reference : Image.t)
  (metric : EMetric) (postProcessing : EPostProcessing) (onlyAlpha : bool)
  (size offset : Z * Z) (referenceChannels : list string)
  (i : nat) (result_i : Channel.t) (channelName : string) : option Channel.t :=
  if negb (hasPixels size) then Some result_i else
  chan ← Image.channel image channelName;
  let isAlpha := (negb onlyAlpha && isAlphaName result_i)%bool in
  match referenceChannels !! i with
  | Some referenceName =>
      referenceChan ← Image.channel reference referenceName;
      if isAlpha then
        Some (forEachPixel size (fun x y =>
                F32.mul (F32.lit 1 2)
                  (F32.add (Channel.evalAt chan (x, y))
                     (Channel.evalAt referenceChan
                        (x + fst offset, y + snd offset))))
              result_i)
      else
        Some (forEachPixel size (fun x y =>
                applyPostProcessing
                  (applyMetric (Channel.evalAt chan (x, y))
                     (Channel.evalAt referenceChan
                        (x + fst offset, y + snd offset))
                     metric)
                  postProcessing)
              result_i)
  | None =>
      if isAlpha then
        Some (forEachPixel size (fun x y => Channel.evalAt chan (x, y)) result_i)
      else
        Some (forEachPixel size (fun x y =>
                applyPostProcessing
                  (applyMetric (Channel.evalAt chan (x, y)) (F32.of_Z 0) metric)
                  postProcessing)
              result_i)
  end.

(** The integer centering offset [(reference->size () - size) / 2]; the
    division of [int] truncates toward zero. *)
Definition centeringOffset (referenceSize size : Z * Z) : Z * Z :=
  (Z.quot (fst referenceSize - fst size) 2,
   Z.quot (snd referenceSize - snd size) 2).

Definition channelsFromImages (image reference : option Image.t)
  (requestedChannelGroup : string) (metric : EMetric)
  (postProcessing : EPostProcessing) : option (list Channel.t) :=
  match image with
  | None => Some []
  | Some image =>
      let channelNames := Image.channelsInGroup image requestedChannelGroup in
      let result :=
        (fun n => Channel.create (toUpper (Channel.tail n)) (Image.size image))
          <$> channelNames in
      let onlyAlpha := forallb isAlphaName result in
      match reference with
      | None =>
          mapM (fun '(r, n) => compositePlain image postProcessing r n)
               (zip result channelNames)
      | Some reference =>
          let size := Image.size image in
          let offset := centeringOffset (Image.size reference) size in
          let referenceChannels :=
            Image.channelsInGroup reference requestedChannelGroup in
          mapM (fun x => x)
               (imap (fun i '(r, n) =>
                        compositeWithReference image reference metric
                          postProcessing onlyAlpha size offset
                          referenceChannels i r n)
                     (zip result channelNames))
      end
  end.

(** *** Images given by a table of named sample lists

    Such an image has one channel group, the empty name, listing all its
    channels in order. *)
Definition imageOf (id : Z) (size : Z * Z) (channels : list (string * list float))
  : Image.t :=
  Image.make id size
    (fun g => if String.eqb g EmptyString then fst <$> channels else [])
    (fun n => match List.find (fun p => String.eqb (fst p) n) channels with
              | Some (name, samples) =>
                  Some (Channel.make name (fst size) (snd size) samples)
              | None => None
              end).

(** ** The canvas and its flat pixel export *)

(** Modelled from the spec: the class [Lazy] of [Lazy.h], which is not among
    the sources at hand: a shared handle to a computation that may still be
    running, whose [computeAsync] schedules the computation on the thread
    pool.  A [Lazy] statistics object lives on the heap and is shared through
    pointers; it is represented by the arguments that its closure
    captured. *)
Record StatisticsRequest := mkRequest {
  rqImage : Image.t;
  rqReference : option Image.t;
  rqRequestedChannelGroup : string;
  rqMetric : EMetric;
  rqPostProcessing : EPostProcessing;
  rqIsCropped : bool;
  rqCropMin : Z * Z;
  rqCropMax : Z * Z
}.

(** The members of [ImageCanvas] that the export, the statistics and the
    cache read or write.  [mLazies] is the heap of [Lazy] objects (one entry
    per object ever allocated), a handle is an address in it, and
    [mScheduled] lists the handles whose computation was handed to the
    thread pool, oldest first. *)
Record ImageCanvas := mkCanvas {
  mImage : option Image.t;
  mReference : option Image.t;
  mRequestedChannelGroup : string;
  mMetric : EMetric;
  mPostProcessing : EPostProcessing;
  mIsCropped : bool;
  mCropMin : Z * Z;
  mCropMax : Z * Z;
  mMeanValues : gmap string nat;
  mLazies : list StatisticsRequest;
  mScheduled : list nat
}.

(** [for (j = 0; j < channelData.size (); ++j) result[j * 4 + i] =
    channelData (j)]. *)
Definition interleaveChannel (i : nat) (c : Channel.t) (result : list float)
  : list float :=
  foldl (fun result j => <[(j * 4 + i)%nat := Channel.data c !!! j]> result)
        result (seq 0 (Z.to_nat (Channel.count c))).

(** [for (i = 0; i < numPixels; ++i) result[i * 4 + 3] = 1]. *)
Definition fillAlpha (numPixels : nat) (result : list float) : list float :=
  foldl (fun result i => <[(i * 4 + 3)%nat := F32.of_Z 1]> result)
        result (seq 0 numPixels).

(** The body of the loop that divides alpha out of channel [i]. *)
Definition divideAlphaAt (i : nat) (result : list float) (j : nat) : float :=
  let alpha := result !!! (j * 4 + 3)%nat in
  if F32.eqb alpha (F32.of_Z 0) then F32.of_Z 0
  else F32.div (result !!! (j * 4 + i)%nat) alpha.

Definition divideAlphaChannel (numPixels : nat) (i : nat) (result : list float)
  : list float :=
  foldl (fun result j => <[(j * 4 + i)%nat := divideAlphaAt i result j]> result)
        result (seq 0 numPixels).

Definition nChannelsToSave (channels : list Channel.t) : nat :=
  Nat.min (length channels) 4.

(** The first parallel loop: [result], resized to four zeros per pixel,
    receives the first [nChannelsToSave] channels.  The parallel loops write
    disjoint cells; they are run channel by channel. *)
Definition interleaveChannels (channels : list Channel.t) (numPixels : nat)
  : list float :=
  foldl (fun result i =>
           match channels !! i with
           | Some c => interleaveChannel i c result
           | None => result
           end)
        (replicate (4 * numPixels) F32.zero)
        (seq 0 (nChannelsToSave channels)).

(** "Manually set alpha channel to 1 if the image does not have one." *)
Definition padAlpha (channels : list Channel.t) (numPixels : nat)
  (result : list float) : list float :=
  if Nat.ltb (nChannelsToSave channels) 4 then fillAlpha numPixels result
  else result.

(** The second parallel loop, over [min (nChannelsToSave, 3)] channels. *)
Definition divideAlphaOut (channels : list Channel.t) (numPixels : nat)
  (result : list float) : list float :=
  foldl (fun result i => divideAlphaChannel numPixels i result)
        result (seq 0 (Nat.min (nChannelsToSave channels) 3)).

(** The export once the composite is known. *)
Definition flattenChannels (channels : list Channel.t) (numPixels : nat)
  (divideAlpha : bool) : list float :=
  match channels with
  | [] => []
  | _ =>
      let result := interleaveChannels channels numPixels in
      let result := padAlpha channels numPixels result in
      if divideAlpha then divideAlphaOut channels numPixels result else result
  end.

Definition getHdrImageData (canvas : ImageCanvas) (divideAlpha : bool)
  : option (list float) :=
  match mImage canvas with
  | None => Some []
  | Some image =>
      channels ← channelsFromImages (mImage canvas) (mReference canvas)
                   (mRequestedChannelGroup canvas) (mMetric canvas)
                   (mPostProcessing canvas);
      Some (flattenChannels channels (Z.to_nat (Image.count image)) divideAlpha)
  end.

(** ** The statistics cache *)

(** Modelled from the spec: the values of the enumerations of [Common.h],
    which is not among the sources at hand, numbered in the order in which
    they are listed. *)
Definition metricId (m : EMetric) : Z :=
  match m with
  | Error => 0 | AbsoluteError => 1 | SquaredError => 2
  | RelativeAbsoluteError => 3 | RelativeSquaredError => 4 | Division => 5
  end.

Definition postProcessingId (p : EPostProcessing) : Z :=
  match p with Identity => 0 | Square => 1 | Clip10 => 2 | Clip100 => 3 end.

Definition cropSuffix (isCropped : bool) (cropMin cropMax : Z * Z) : string :=
  if isCropped then
    "-crop" +:+ "-" +:+ pretty (fst cropMin) +:+ "-" +:+ pretty (snd cropMin)
            +:+ "-" +:+ pretty (fst cropMax) +:+ "-" +:+ pretty (snd cropMax)
  else EmptyString.

(** The key that [canvasStatistics] builds: [%d] and [std::to_string] print
    an [int] in decimal. *)
Definition statisticsKey (image : Image.t) (reference : option Image.t)
  (requestedChannelGroup : string) (metric : EMetric)
  (postProcessing : EPostProcessing) (isCropped : bool)
  (cropMin cropMax : Z * Z) : string :=
  let channels := join (Image.channelsInGroup image requestedChannelGroup) "," in
  let key :=
    match reference with
    | Some reference =>
        pretty (Image.id image) +:+ "-" +:+ channels +:+ "-"
          +:+ pretty (Image.id reference) +:+ "-" +:+ pretty (metricId metric)
          +:+ "-" +:+ pretty (postProcessingId postProcessing)
    | None =>
        pretty (Image.id image) +:+ "-" +:+ channels +:+ "-"
          +:+ pretty (postProcessingId postProcessing)
    end in
  key +:+ cropSuffix isCropped cropMin cropMax.

Definition canvasKey (canvas : ImageCanvas) (image : Image.t) : string :=
  statisticsKey image (mReference canvas) (mRequestedChannelGroup canvas)
    (mMetric canvas) (mPostProcessing canvas) (mIsCropped canvas)
    (mCropMin canvas) (mCropMax canvas).

(** [canvasStatistics]: the handle for the current request, and the canvas
    afterwards.  On a miss a new [Lazy] is allocated, recorded under the key
    and its computation scheduled ([computeAsync]). *)
Definition canvasStatistics (canvas : ImageCanvas) : option nat * ImageCanvas :=
  match mImage canvas with
  | None => (None, canvas)
  | Some image =>
      let key := canvasKey canvas image in
      match mMeanValues canvas !! key with
      | Some handle => (Some handle, canvas)
      | None =>
          let val := length (mLazies canvas) in
          let request :=
            mkRequest image (mReference canvas) (mRequestedChannelGroup canvas)
              (mMetric canvas) (mPostProcessing canvas) (mIsCropped canvas)
              (mCropMin canvas) (mCropMax canvas) in
          (Some val,
           mkCanvas (mImage canvas) (mReference canvas)
             (mRequestedChannelGroup canvas) (mMetric canvas)
             (mPostProcessing canvas) (mIsCropped canvas) (mCropMin canvas)
             (mCropMax canvas)
             (<[key := val]> (mMeanValues canvas))
             (mLazies canvas ++ [request])
             (mScheduled canvas ++ [val]))
      end
  end.

(** ** The statistics engine *)

Record CanvasStatistics := mkStatistics {
  mean : float;
  maximum : float;
  minimum : float;
  (** 400 rows; one column per data channel, each column listed by bin *)
  histogram : list (list float);
  histogramZero : Z
}.

Definition NUM_BINS : Z := 400.

(** The search for the alpha channel.  [alphaChannel] is a pointer to the
    cell of [flattened] where the first channel named "A" was found; when
    that cell is not the last one its content is swapped with the last
    cell's, and the pointer keeps designating the cell where it was found.
    The result is the vector afterwards and the index the pointer
    designates. *)
Definition locateAlpha (flattened : list Channel.t)
  : list Channel.t * option nat :=
  if forallb isAlphaName flattened then (flattened, None)
  else
    match list_find (fun c => isAlphaName c = true) flattened with
    | None => (flattened, None)
    | Some (k, channel) =>
        let last := (length flattened - 1)%nat in
        if Nat.eqb k last then (flattened, Some k)
        else
          match flattened !! last with
          | Some back =>
              (<[last := channel]> (<[k := back]> flattened), Some k)
          | None => (flattened, Some k)
          end
    end.

Definition min2 (a b : Z * Z) : Z * Z := (Z.min (fst a) (fst b), Z.min (snd a) (snd b)).
Definition max0 (a : Z * Z) : Z * Z := (Z.max (fst a) 0, Z.max (snd a) 0).

(** The crop rectangle after the defaults, the swaps and the clamping. *)
Definition resolveCrop (size : Z * Z) (isCropped : bool) (cropMin cropMax : Z * Z)
  : (Z * Z) * (Z * Z) :=
  let cropMin := if isCropped then cropMin else (0, 0) in
  let cropMax := if isCropped then cropMax else size in
  let '(minX, maxX) :=
    if Z.ltb (fst cropMax) (fst cropMin) then (fst cropMax, fst cropMin)
    else (fst cropMin, fst cropMax) in
  let '(minY, maxY) :=
    if Z.ltb (snd cropMax) (snd cropMin) then (snd cropMax, snd cropMin)
    else (snd cropMin, snd cropMax) in
  (max0 (min2 (minX, minY) size), max0 (min2 (maxX, maxY) size)).

(** The running values of the first pass: [mean] (a sum until the end),
    [maximum], [minimum] and [pixelCount]. *)
Record Accumulator := mkAcc {
  accMean : float;
  accMaximum : float;
  accMinimum : float;
  accPixelCount : Z
}.

Definition accInit : Accumulator :=
  mkAcc (F32.of_Z 0) F32.neg_infinity F32.infinity 0.

Definition accumulateSample (acc : Accumulator) (v : float) : Accumulator :=
  if negb (F32.isnan v) then
    mkAcc (F32.add (accMean acc) v) (F32.max (accMaximum acc) v)
          (F32.min (accMinimum acc) v) (accPixelCount acc + 1)
  else acc.

(** The loop over [y] in [cropMin.y, cropMax.y) and [x] in
    [cropMin.x, cropMax.x) for one channel. *)
Definition accumulateChannel (stride : Z) (cropMin cropMax : Z * Z)
  (acc : Accumulator) (channel : Channel.t) : Accumulator :=
  foldl (fun acc y =>
           foldl (fun acc x =>
                    accumulateSample acc (Channel.eval channel (x + y * stride)))
                 acc (seqZ (fst cropMin) (fst cropMax - fst cropMin)))
        acc (seqZ (snd cropMin) (snd cropMax - snd cropMin)).

Definition accumulate (stride : Z) (cropMin cropMax : Z * Z)
  (dataChannels : list Channel.t) : Accumulator :=
  foldl (accumulateChannel stride cropMin cropMax) accInit dataChannels.

(** Insertion into an ascending list, for the selection below. *)
Fixpoint insertAscending (v : float) (l : list float) : list float :=
  match l with
  | [] => [v]
  | w :: rest => if F32.ltb w v then w :: insertAscending v rest else v :: l
  end.

(** [std::nth_element] leaves at position [idx] the value that a sort would
    put there (for samples that [<] orders). *)
Definition nthElement (temp : list float) (idx : nat) : float :=
  foldr insertAscending [] temp !!! idx.

Section Statistics.

(** [logf] and [expf] stand for [log] and [exp] on [float], and [undef]
    for the result of an out-of-range conversion to [int]. *)
Variable logf : float -> float.
Variable expf : float -> float.
Variable undef : Z.

Definition addition : float := F32.lit 1 1000.
Definition smallest : float := logf addition.

Definition symmetricLog (val : float) : float :=
  if F32.ltb (F32.of_Z 0) val
  then F32.sub (logf (F32.add val addition)) smallest
  else F32.opp (F32.sub (logf (F32.add (F32.opp val) addition)) smallest).

Definition symmetricLogInverse (val : float) : float :=
  if F32.ltb (F32.of_Z 0) val
  then F32.sub (expf (F32.add val smallest)) addition
  else F32.opp (F32.sub (expf (F32.add (F32.opp val) smallest)) addition).

Definition valToBin (minLog diffLog : float) (val : float) : Z :=
  clampZ (F32.to_int undef
            (F32.div (F32.mul (F32.of_Z NUM_BINS)
                              (F32.sub (symmetricLog val) minLog))
                     diffLog))
         0 (NUM_BINS - 1).

Definition binToVal (minLog diffLog : float) (val : float) : float :=
  symmetricLogInverse
    (F32.add (F32.div (F32.mul diffLog val) (F32.of_Z NUM_BINS)) minLog).

(** First phase: [indices (j, i) = valToBin (channel.eval (j))] for every
    element [j] of the image. *)
Definition binIndices (minLog diffLog : float) (numElements : Z)
  (channel : Channel.t) : list Z :=
  (fun j => valToBin minLog diffLog (Channel.eval channel j))
    <$> seqZ 0 numElements.

(** The weight of element [j]: [alphaChannel ? alphaChannel->eval (j) : 1]. *)
Definition sampleWeight (alphaChannel : option Channel.t) (j : Z) : float :=
  match alphaChannel with
  | Some alpha => Channel.eval alpha j
  | None => F32.of_Z 1
  end.

(** Second phase, for one channel: [histogram (indices (j, i), i) += weight]
    for every element [j] of the image. *)
Definition accumulateColumn (alphaChannel : option Channel.t)
  (indices : list Z) : list float :=
  foldl (fun column '(j, bin) =>
           alter (fun h => F32.add h (sampleWeight alphaChannel j))
                 (Z.to_nat bin) column)
        (replicate (Z.to_nat NUM_BINS) (F32.of_Z 0))
        (zip (seqZ 0 (Z.of_nat (length indices))) indices).

(** The histogram after both phases, before the bins are divided by their
    widths and before the normalisation. *)
Definition histogramCounts (minLog diffLog : float) (numElements : Z)
  (alphaChannel : option Channel.t) (dataChannels : list Channel.t)
  : list (list float) :=
  (fun channel =>
     accumulateColumn alphaChannel (binIndices minLog diffLog numElements channel))
    <$> dataChannels.

(** [histogram.row (i) /= binToVal (i + 1) - binToVal (i)]. *)
Definition divideByBinWidth (minLog diffLog : float) (column : list float)
  : list float :=
  imap (fun i h =>
          F32.div h
            (F32.sub (binToVal minLog diffLog (F32.of_Z (Z.of_nat i + 1)))
                     (binToVal minLog diffLog (F32.of_Z (Z.of_nat i)))))
       column.

(** Division of the whole histogram by 1.3 times the larger of its
    tenth-largest entry and 0.1. *)
Definition normalizeHistogram (h : list (list float)) : list (list float) :=
  let temp := concat h in
  let idx := (length temp - 10)%nat in
  let divisor := F32.mul (F32.max (nthElement temp idx) (F32.lit 1 10))
                         (F32.lit 13 10) in
  (fun column : list float => (fun v => F32.div v divisor) <$> column) <$> h.

(** What the statistics pass derives from the composite: the channels after
    the alpha search, the channel the alpha pointer designates, the number
    of data channels and the resolved crop rectangle. *)
Definition dataChannelCount (flattened : list Channel.t) : nat :=
  match snd (locateAlpha flattened) with
  | Some _ => (length flattened - 1)%nat
  | None => length flattened
  end.

Definition dataChannels (flattened : list Channel.t) : list Channel.t :=
  take (dataChannelCount flattened) (fst (locateAlpha flattened)).

Definition alphaChannelOf (flattened : list Channel.t) : option Channel.t :=
  k ← snd (locateAlpha flattened); fst (locateAlpha flattened) !! k.

Definition statisticsOf (image : Image.t) (flattened : list Channel.t)
  (isCropped : bool) (cropMin cropMax : Z * Z) : CanvasStatistics :=
  let channels := dataChannels flattened in
  let alphaChannel := alphaChannelOf flattened in
  let nChannels := dataChannelCount flattened in
  let '(cropMin, cropMax) :=
    resolveCrop (Image.size image) isCropped cropMin cropMax in
  let stride := fst (Image.size image) in
  let acc := accumulate stride cropMin cropMax channels in
  let mean :=
    if Nat.ltb 0 nChannels
    then F32.div (accMean acc) (F32.of_Z (accPixelCount acc))
    else F32.of_Z 0 in
  let maximum := accMaximum acc in
  let minimum := accMinimum acc in
  let minLog := symmetricLog minimum in
  let diffLog := F32.sub (symmetricLog maximum) minLog in
  let histogramZero := valToBin minLog diffLog (F32.of_Z 0) in
  if Nat.eqb nChannels 0 then
    mkStatistics mean maximum minimum [] histogramZero
  else
    let counts :=
      histogramCounts minLog diffLog (Image.count image) alphaChannel channels in
    mkStatistics mean maximum minimum
      (normalizeHistogram (divideByBinWidth minLog diffLog <$> counts))
      histogramZero.

(** [computeCanvasStatistics].  A null [image] is dereferenced for its size:
    [None], as for a channel name that does not resolve. *)
Definition computeCanvasStatistics (image reference : option Image.t)
  (requestedChannelGroup : string) (metric : EMetric)
  (postProcessing : EPostProcessing) (isCropped : bool)
  (cropMin cropMax : Z * Z) : option CanvasStatistics :=
  flattened ← channelsFromImages image reference requestedChannelGroup metric
                postProcessing;
  img ← image;
  Some (statisticsOf img flattened isCropped cropMin cropMax).

End Statistics.

(** ** Vocabulary of the statements *)

(** Images and canvases used as concrete inputs. *)
Definition exampleImage : Image.t :=
  imageOf 1 (2, 2) [("R"%string, [F32.of_Z 1; F32.of_Z 2; F32.of_Z 3; F32.nan])].

(** The composite of [exampleImage] without reference under the identity
    post-processing. *)
Definition exampleComposite : list Channel.t :=
  [Channel.make "R" 2 2 [F32.of_Z 1; F32.of_Z 2; F32.of_Z 3; F32.nan]].

Definition nanImage : Image.t := imageOf 1 (1, 1) [("R"%string, [F32.nan])].

Definition primaryRA : Image.t :=
  imageOf 1 (1, 1) [("R"%string, [F32.of_Z 1]); ("A"%string, [F32.of_Z 1])].

Definition referenceR : Image.t := imageOf 2 (1, 1) [("R"%string, [F32.of_Z 5])].

Definition referenceRA : Image.t :=
  imageOf 2 (1, 1) [("R"%string, [F32.of_Z 5]); ("A"%string, [F32.of_Z 0])].

Definition emptyCanvas (image : option Image.t) : ImageCanvas :=
  mkCanvas image None EmptyString Error Identity false (0, 0) (0, 0) ∅ [] [].

(** The sample of the primary image that feeds pixel [pixel] of composite
    channel [i], and the reference sample at the same channel index (zero
    when the reference has no channel there). *)
Definition primarySample (image : Image.t) (group : string) (i : nat)
  (pixel : Z * Z) : option float :=
  channelName ← Image.channelsInGroup image group !! i;
  chan ← Image.channel image channelName;
  Some (Channel.evalAt chan pixel).

Definition referenceSample (reference : Image.t) (group : string) (i : nat)
  (pixel : Z * Z) : float :=
  match Image.channelsInGroup reference group !! i with
  | Some referenceName =>
      match Image.channel reference referenceName with
      | Some referenceChan => Channel.evalAt referenceChan pixel
      | None => F32.zero
      end
  | None => F32.zero
  end.

Definition entirelyAlpha (channels : list Channel.t) : Prop :=
  Forall (fun c => Channel.name c = "A"%string) channels.

(** Names and samples of a composite at one pixel. *)
Definition samplesAt (pixel : Z * Z) (channels : option (list Channel.t))
  : option (list (string * float)) :=
  (fun cs : list Channel.t =>
     (fun c => (Channel.name c, Channel.evalAt c pixel)) <$> cs)
    <$> channels.

(** The sample that the compositor stores for one pixel, from the primary
    sample [p] and the reference sample [r] (if the reference has a channel
    at that index). *)
Definition compositeSample (isAlpha : bool) (metric : EMetric)
  (pp : EPostProcessing) (p : float) (r : option float) : float :=
  match r with
  | Some r =>
      if isAlpha then F32.mul (F32.lit 1 2) (F32.add p r)
      else applyPostProcessing (applyMetric p r metric) pp
  | None =>
      if isAlpha then p
      else applyPostProcessing (applyMetric p (F32.of_Z 0) metric) pp
  end.

(** A loop of cell writes [buf[idx k] = val buf k], one per key. *)
Definition writes {K A : Type} (idx : K -> nat) (val : list A -> K -> A)
  (buf : list A) (ks : list K) : list A :=
  foldl (fun b k => <[idx k := val b k]> b) buf ks.

(** The pixels of a grid in the order of the two nested loops, and the cell
    of a row-major buffer that each one owns. *)
Definition pixels (size : Z * Z) : list (Z * Z) :=
  seqZ 0 (snd size) ≫= fun y => (fun x => (x, y)) <$> seqZ 0 (fst size).

Definition cellOf (cols : Z) (p : Z * Z) : nat := Z.to_nat (fst p + snd p * cols).

(** The (channel, pixel) pairs in the order of a loop over channels around a
    loop over pixels, and the cell of the interleaved buffer each one owns. *)
Definition slots (n numPixels : nat) : list (nat * nat) :=
  seq 0 n ≫= fun i => (fun j => (i, j)) <$> seq 0 numPixels.

Definition slotCell (s : nat * nat) : nat := (snd s * 4 + fst s)%nat.

(** Sample [j] of composite channel [i] (0 when there is none). *)
Definition channelSample (channels : list Channel.t) (i j : nat) : float :=
  match channels !! i with
  | Some c => Channel.data c !!! j
  | None => F32.zero
  end.

(** The alpha slot of pixel [j] in the export: the fourth composite channel
    when there is one, whatever its name, and 1 otherwise. *)
Definition alphaSlot (channels : list Channel.t) (j : nat) : float :=
  match channels !! 3%nat with
  | Some c => Channel.data c !!! j
  | None => F32.of_Z 1
  end.

(** What the alpha division leaves in a colour slot. *)
Definition dividedBy (alpha v : float) : float :=
  if F32.eqb alpha (F32.of_Z 0) then F32.of_Z 0 else F32.div v alpha.

(** Every computation was scheduled once: the handles of the cache are
    scheduled, and the schedule has no duplicates and names allocated
    objects only. *)
Definition cacheInvariant (canvas : ImageCanvas) : Prop :=
  NoDup (mScheduled canvas) ∧
  (∀ h, h ∈ mScheduled canvas → (h < length (mLazies canvas))%nat) ∧
  (∀ k h, mMeanValues canvas !! k = Some h → h ∈ mScheduled canvas).

#[global] Arguments F32.add : simpl never.
#[global] Arguments F32.sub : simpl never.
#[global] Arguments F32.mul : simpl never.
#[global] Arguments F32.div : simpl never.
#[global] Arguments F32.of_Z : simpl never.
#[global] Arguments F32.lit : simpl never.
#[global] Arguments Channel.evalAt : simpl never.
#[global] Arguments Channel.eval : simpl never.
#[global] Arguments forEachPixel : simpl never.
#[global] Arguments applyMetric : simpl never.
#[global] Arguments applyPostProcessing : simpl never.

(** The resolved crop rectangle holds no sample other than NaN, in any data
    channel. *)
Definition noValidSample (image : Image.t) (flattened : list Channel.t)
  (isCropped : bool) (cropMin cropMax : Z * Z) : bool :=
  let crop := resolveCrop (Image.size image) isCropped cropMin cropMax in
  forallb
    (fun channel =>
       forallb
         (fun y =>
            forallb
              (fun x =>
                 F32.isnan (Channel.eval channel (x + y * fst (Image.size image))))
              (seqZ (fst (fst crop)) (fst (snd crop) - fst (fst crop))))
         (seqZ (snd (fst crop)) (snd (snd crop) - snd (fst crop))))
    (dataChannels flattened).

(** The first pass of the statistics over the resolved crop rectangle. *)
Definition cropAccumulator (image : Image.t) (flattened : list Channel.t)
  (isCropped : bool) (cropMin cropMax : Z * Z) : Accumulator :=
  let crop := resolveCrop (Image.size image) isCropped cropMin cropMax in
  accumulate (fst (Image.size image)) (fst crop) (snd crop)
    (dataChannels flattened).

(** The bounds of the histogram domain, [minLog] and [diffLog]. *)
Definition histogramDomain (logf : float -> float) (acc : Accumulator)
  : float * float :=
  let minLog := symmetricLog logf (accMinimum acc) in
  (minLog, F32.sub (symmetricLog logf (accMaximum acc)) minLog).

(** The histogram of a statistics computation after both phases of the
    accumulation, before the division by the bin widths and before the
    normalisation. *)
Definition rawHistogram (logf : float -> float) (undef : Z) (image : Image.t)
  (flattened : list Channel.t) (isCropped : bool) (cropMin cropMax : Z * Z)
  : list (list float) :=
  let domain :=
    histogramDomain logf
      (cropAccumulator image flattened isCropped cropMin cropMax) in
  histogramCounts logf undef (fst domain) (snd domain) (Image.count image)
    (alphaChannelOf flattened) (dataChannels flattened).

(** The total of a histogram column over all bins. *)
Definition columnTotal (column : list float) : float :=
  foldl F32.add (F32.of_Z 0) column.

(** Occurrence counts of bin indices, bin by bin. *)
Definition binCounts (indices : list Z) : list nat :=
  foldl (fun counts bin => alter S (Z.to_nat bin) counts)
        (replicate (Z.to_nat NUM_BINS) 0%nat) indices.

Definition ofNat (n : nat) : float := F32.of_Z (Z.of_nat n).

Definition threePixelImage : Image.t :=
  imageOf 1 (3, 1) [("R"%string, [F32.of_Z 1; F32.of_Z 2; F32.of_Z 3])].

Definition threePixelComposite : list Channel.t :=
  [Channel.make "R" 3 1 [F32.of_Z 1; F32.of_Z 2; F32.of_Z 3]].

(** A composite whose alpha channel comes first. *)
Definition alphaFirstComposite : list Channel.t :=
  [Channel.make "A" 1 1 [F32.of_Z 1]; Channel.make "R" 1 1 [F32.of_Z 2];
   Channel.make "G" 1 1 [F32.of_Z 3]].

(** ** Command-line and inter-process image requests ([main.cpp])

    The strings of [main.cpp] are taken as lists of characters.  A call
    [imagesLoader->enqueue (file, selector, ...)] is recorded as the pair of
    its first two arguments. *)

Abbreviation cstring := (list ascii).

(** [!imageFile.empty () && imageFile[0] == ':']. *)
Definition isSelector (imageFile : cstring) : bool :=
  match imageFile with
  | c :: _ => Ascii.eqb c ":"%char
  | [] => false
  end.

(** One turn of the loop over the image files of the command line: an
    argument that starts with a colon replaces the channel selector, any
    other one is enqueued with the current selector. *)
Definition enqueueStep (state : cstring * list (cstring * cstring))
  (imageFile : cstring) : cstring * list (cstring * cstring) :=
  let '(channelSelector, queue) := state in
  if isSelector imageFile then (drop 1 imageFile, queue)
  else (channelSelector, queue ++ [(imageFile, channelSelector)]).

Definition enqueueImageFiles (imageFiles : list cstring)
  : list (cstring * cstring) :=
  snd (foldl enqueueStep ([], []) imageFiles).

(** The loop over the lines of the standard input differs in one point: an
    empty line is skipped.  A line is taken as [ensureUtf8] returns it. *)
Definition enqueueLineStep (state : cstring * list (cstring * cstring))
  (imageFile : cstring) : cstring * list (cstring * cstring) :=
  match imageFile with
  | [] => state
  | _ => enqueueStep state imageFile
  end.

Definition enqueueLines (lines : list cstring) : list (cstring * cstring) :=
  snd (foldl enqueueLineStep ([], []) lines).

(** [size_t] arithmetic: 64 bits, wrapping; [npos] is the largest value. *)
Definition npos : Z := 2 ^ 64 - 1.
Definition wrapSize (n : Z) : Z := n mod 2 ^ 64.

(** [s.find_last_of (c)]: the index of the last occurrence, if any. *)
Fixpoint lastIndexOf (s : cstring) (c : ascii) : option nat :=
  match s with
  | [] => None
  | a :: rest =>
      match lastIndexOf rest c with
      | Some k => Some (S k)
      | None => if Ascii.eqb a c then Some 0%nat else None
      end
  end.

Definition find_last_of (s : cstring) (c : ascii) : Z :=
  match lastIndexOf s c with
  | Some k => Z.of_nat k
  | None => npos
  end.

(** [s.substr (pos, count)]: at most [count] characters from [pos] on; it
    throws when [pos] is beyond the end: [None]. *)
Definition substr (s : cstring) (pos count : Z) : option cstring :=
  if Z.ltb (Z.of_nat (length s)) pos then None
  else Some (take (Z.to_nat (Z.min count (Z.of_nat (length s) - pos)))
                  (drop (Z.to_nat pos) s)).

(** What a secondary instance sends for an image file:
    [tfm::format ("%s:%s", path, channelSelector)]. *)
Definition ipcMessage (absolutePath channelSelector : cstring) : cstring :=
  absolutePath ++ ":"%char :: channelSelector.

(** What the primary instance enqueues for a received string, taken as
    [ensureUtf8] returns it: the parts before and after [colonPos]. *)
Definition splitImageString (imageString : cstring)
  : option (cstring * cstring) :=
  let colonPos :=
    Z.min (wrapSize (Z.of_nat (length imageString) - 1))
          (find_last_of imageString ":"%char) in
  file ← substr imageString 0 colonPos;
  selector ← substr imageString (wrapSize (colonPos + 1)) npos;
  Some (file, selector).

(** One turn of the loop of a secondary instance: the selector is kept as in
    [enqueueStep]; for any other argument the absolute path and the current
    selector are sent to the primary instance.  [make_absolute] stands for
    [path{imageFile}.make_absolute ()], a parameter here; [None] is its
    [runtime_error], which the loop catches: nothing is sent.  The send
    itself is taken to succeed. *)
Definition sendStep (make_absolute : cstring → option cstring)
  (state : cstring * list cstring) (imageFile : cstring)
  : cstring * list cstring :=
  let '(channelSelector, sent) := state in
  if isSelector imageFile then (drop 1 imageFile, sent)
  else match make_absolute imageFile with
       | Some absolutePath =>
           (channelSelector, sent ++ [ipcMessage absolutePath channelSelector])
       | None => (channelSelector, sent)
       end.

Definition sendImageFiles (make_absolute : cstring → option cstring)
  (imageFiles : list cstring) : list cstring :=
  snd (foldl (sendStep make_absolute) ([], []) imageFiles).

(** What the primary instance enqueues for the strings it receives, one
    after the other; an exception of [substr] is not caught: [None]. *)
Definition receiveImageStrings (received : list cstring)
  : option (list (cstring * cstring)) :=
  mapM splitImageString received.

Definition absolutePaths (make_absolute : cstring → option cstring)
  (queue : list (cstring * cstring)) : list (cstring * cstring) :=
  omap (fun request =>
          (fun absolutePath => (absolutePath, snd request))
            <$> make_absolute (fst request)) queue.

(** ** Further vocabulary *)

(** The sign of a value that is not a NaN. *)
Definition signBit (x : float) : option bool :=
  match x with
  | S754_zero s | S754_infinity s | S754_finite s _ _ => Some s
  | S754_nan => None
  end.

(** The position of a value in the order of the non-NaN values: class, then
    exponent, then mantissa, mirrored for negative values. *)
Definition floatRank (x : float) : Z * (Z * Z) :=
  match x with
  | S754_infinity true => (-2, (0, 0))
  | S754_finite true m e => (-1, (- e, - Zpos m))
  | S754_zero _ | S754_nan => (0, (0, 0))
  | S754_finite false m e => (1, (e, Zpos m))
  | S754_infinity false => (2, (0, 0))
  end.

Definition rankLt (a b : Z * (Z * Z)) : Prop :=
  fst a < fst b ∨
  (fst a = fst b ∧
   (fst (snd a) < fst (snd b) ∨
    (fst (snd a) = fst (snd b) ∧ snd (snd a) < snd (snd b)))).

(** [a <= b] as C++ evaluates it. *)
Definition floatLeb (a b : float) : bool := SFleb a b.

(** The samples that the first pass of the statistics visits, in the order
    of its three nested loops, and those among them that are not NaN. *)
Definition cropSamples (stride : Z) (cropMin cropMax : Z * Z)
  (channels : list Channel.t) : list float :=
  channels ≫= fun channel =>
  seqZ (snd cropMin) (snd cropMax - snd cropMin) ≫= fun y =>
  (fun x => Channel.eval channel (x + y * stride))
    <$> seqZ (fst cropMin) (fst cropMax - fst cropMin).

Definition validSamples (image : Image.t) (flattened : list Channel.t)
  (isCropped : bool) (cropMin cropMax : Z * Z) : list float :=
  let crop := resolveCrop (Image.size image) isCropped cropMin cropMax in
  List.filter (fun v => negb (F32.isnan v))
    (cropSamples (fst (Image.size image)) (fst crop) (snd crop)
       (dataChannels flattened)).

(** A canvas whose request parameters were set anew; the cache is kept. *)
Record RequestParameters := mkParameters {
  rpImage : option Image.t;
  rpReference : option Image.t;
  rpRequestedChannelGroup : string;
  rpMetric : EMetric;
  rpPostProcessing : EPostProcessing;
  rpIsCropped : bool;
  rpCropMin : Z * Z;
  rpCropMax : Z * Z
}.

Definition withParameters (canvas : ImageCanvas) (p : RequestParameters)
  : ImageCanvas :=
  mkCanvas (rpImage p) (rpReference p) (rpRequestedChannelGroup p) (rpMetric p)
    (rpPostProcessing p) (rpIsCropped p) (rpCropMin p) (rpCropMax p)
    (mMeanValues canvas) (mLazies canvas) (mScheduled canvas).

(** A session: the parameters are set and the statistics requested, once
    per element of the list. *)
Definition requestAll (canvas : ImageCanvas) (session : list RequestParameters)
  : ImageCanvas :=
  foldl (fun canvas p => snd (canvasStatistics (withParameters canvas p)))
        canvas session.

(** The key of the parameters that a [Lazy] captured. *)
Definition requestKey (r : StatisticsRequest) : string :=
  statisticsKey (rqImage r) (rqReference r) (rqRequestedChannelGroup r)
    (rqMetric r) (rqPostProcessing r) (rqIsCropped r) (rqCropMin r)
    (rqCropMax r).

(** The cache of a session: every entry has its own [Lazy], whose captured
    parameters have the entry's key, and the [Lazy] objects were scheduled
    once each, in the order of their allocation. *)
Definition cacheWellFormed (canvas : ImageCanvas) : Prop :=
  mScheduled canvas = seq 0 (length (mLazies canvas)) ∧
  size (mMeanValues canvas) = length (mLazies canvas) ∧
  (∀ k h, mMeanValues canvas !! k = Some h →
          ∃ r, mLazies canvas !! h = Some r ∧ requestKey r = k) ∧
  (∀ h r, mLazies canvas !! h = Some r →
          mMeanValues canvas !! requestKey r = Some h).

(** Arithmetic on the cells of slots. *)
Ltac slot_arith := unfold slotCell, nChannelsToSave in *; simpl in *; lia.

(** Removal of the common prefix of two keys. *)
Ltac cancel_key assoc H :=
  unfold statisticsKey, cropSuffix in H; rewrite ?assoc in H;
  repeat (apply (inj (String.append _)) in H).

(** * Proofs *)

(** ** Loops of cell writes *)

Section Writes.
Context {K A : Type} (idx : K → nat) (val : list A → K → A).

Lemma length_writes buf ks : length (writes idx val buf ks) = length buf.
Proof.
  revert buf. induction ks as [|k ks IH]; intros buf; [done|].
  cbn. unfold writes in IH. by rewrite IH, length_insert.
Qed.

Lemma writes_lookup_other buf ks m :
  (∀ k, k ∈ ks → idx k ≠ m) → writes idx val buf ks !! m = buf !! m.
Proof.
  revert buf. induction ks as [|k ks IH]; intros buf Hm; [done|].
  cbn. unfold writes in IH. rewrite IH.
  - apply list_lookup_insert_ne. apply Hm. by left.
  - intros k' Hk'. apply Hm. by right.
Qed.

(** A cell written once holds the value computed for it from the initial
    buffer, provided that value depends only on the cell itself and on cells
    that the loop never writes. *)
Lemma writes_lookup buf ks k0 :
  NoDup (idx <$> ks) → k0 ∈ ks → (idx k0 < length buf)%nat →
  (∀ k b, k ∈ ks →
     (∀ m, m = idx k ∨ (∀ k', k' ∈ ks → idx k' ≠ m) → b !! m = buf !! m) →
     val b k = val buf k) →
  writes idx val buf ks !! idx k0 = Some (val buf k0).
Proof.
  revert buf. induction ks as [|k ks IH]; intros buf Hnd Hin Hlen Hst.
  { by apply elem_of_nil in Hin. }
  rewrite fmap_cons in Hnd. apply NoDup_cons in Hnd as [Hk Hnd].
  assert (∀ k1, k1 ∈ ks → idx k ≠ idx k1) as Hne.
  { intros k1 Hk1 Heq. apply Hk. rewrite Heq. by apply list_elem_of_fmap_2. }
  change (writes idx val buf (k :: ks))
    with (writes idx val (<[idx k := val buf k]> buf) ks).
  set (buf' := <[idx k := val buf k]> buf).
  assert (∀ k1, k1 ∈ ks → val buf' k1 = val buf k1) as Hbuf'.
  { intros k1 Hk1. apply Hst; [by right|]. intros m [->|Hm]; unfold buf'.
    - apply list_lookup_insert_ne; auto.
    - apply list_lookup_insert_ne. apply Hm. by left. }
  apply elem_of_cons in Hin as [->|Hin].
  - rewrite writes_lookup_other by (intros k1 Hk1; symmetry; auto).
    by apply list_lookup_insert_eq.
  - rewrite IH;
      [by rewrite Hbuf' | done | done | by unfold buf'; rewrite length_insert |].
    intros k1 b Hk1 Hb. rewrite Hbuf' by done.
    apply Hst; [by right|]. intros m Hm.
    assert (idx k ≠ m) as Hkm.
    { destruct Hm as [->|Hm]; [auto | apply Hm; by left]. }
    rewrite Hb.
    + unfold buf'. by apply list_lookup_insert_ne.
    + destruct Hm as [->|Hm]; [by left | right].
      intros k' Hk'. apply Hm. by right.
Qed.

End Writes.

Lemma foldl_bind {A B C} (g : A → C → A) (h : B → list C) (a : A) (l : list B) :
  foldl g a (l ≫= h) = foldl (λ a y, foldl g a (h y)) a l.
Proof.
  revert a. induction l as [|y l IH]; intros a; [done|].
  rewrite bind_cons, foldl_app. apply IH.
Qed.

Lemma elem_of_pixels size x y :
  (x, y) ∈ pixels size ↔ 0 ≤ x < fst size ∧ 0 ≤ y < snd size.
Proof.
  unfold pixels. rewrite list_elem_of_bind. split.
  - intros (y' & Hx & Hy). apply list_elem_of_fmap in Hx as (x' & [= -> ->] & Hx).
    apply elem_of_seqZ in Hx, Hy. lia.
  - intros [Hx Hy]. exists y. split.
    + apply list_elem_of_fmap. exists x. split; [done|]. apply elem_of_seqZ. lia.
    + apply elem_of_seqZ. lia.
Qed.

Lemma cellOf_inj cols x y x' y' :
  0 ≤ x < cols → 0 ≤ x' < cols → 0 ≤ y → 0 ≤ y' →
  cellOf cols (x, y) = cellOf cols (x', y') → x = x' ∧ y = y'.
Proof.
  unfold cellOf. simpl. intros Hx Hx' Hy Hy' Heq.
  apply Z2Nat.inj in Heq; [|nia..].
  assert (y = y') by nia. subst. lia.
Qed.

Lemma NoDup_pixels size : NoDup (pixels size).
Proof.
  unfold pixels. apply NoDup_bind.
  - intros y1 y2 p _ _ H1 H2.
    apply list_elem_of_fmap in H1 as (? & -> & _).
    apply list_elem_of_fmap in H2 as (? & [= _ ->] & _). done.
  - intros y _. apply NoDup_fmap_2; [|apply NoDup_seqZ]. by intros ?? [= ->].
  - apply NoDup_seqZ.
Qed.

Lemma NoDup_cells size : NoDup (cellOf (fst size) <$> pixels size).
Proof.
  apply NoDup_fmap_2_strong; [|apply NoDup_pixels].
  intros [x y] [x' y'] H1 H2 Heq.
  apply elem_of_pixels in H1, H2.
  apply cellOf_inj in Heq as [-> ->]; [done|lia..].
Qed.

Lemma foldl_setAt (F : Z * Z → float) (c : Channel.t) (ks : list (Z * Z)) :
  foldl (λ c k, Channel.setAt c k (F k)) c ks
  = Channel.make (Channel.name c) (Channel.cols c) (Channel.rows c)
      (writes (cellOf (Channel.cols c)) (λ _ k, F k) (Channel.data c) ks).
Proof.
  revert c. induction ks as [|k ks IH]; intros c; [by destruct c|].
  cbn. rewrite IH. reflexivity.
Qed.

Lemma foldl_ext {A B} (f g : A → B → A) (a : A) (l : list B) :
  (∀ a x, f a x = g a x) → foldl f a l = foldl g a l.
Proof.
  intros Hfg. revert a. induction l as [|x l IH]; intros a; [done|].
  cbn. by rewrite Hfg, IH.
Qed.

Lemma forEachPixel_writes size f c :
  forEachPixel size f c
  = Channel.make (Channel.name c) (Channel.cols c) (Channel.rows c)
      (writes (cellOf (Channel.cols c)) (λ _ k, f (fst k) (snd k))
              (Channel.data c) (pixels size)).
Proof.
  rewrite <- (foldl_setAt (λ k, f (fst k) (snd k))).
  unfold forEachPixel, pixels. rewrite foldl_bind.
  apply foldl_ext. intros a y. by rewrite foldl_fmap.
Qed.

Lemma forEachPixel_evalAt w h f name x y :
  0 ≤ x < w → 0 ≤ y < h →
  Channel.evalAt (forEachPixel (w, h) f (Channel.create name (w, h))) (x, y) = f x y.
Proof.
  intros Hx Hy. rewrite forEachPixel_writes. unfold Channel.evalAt. simpl.
  replace (_ || _ || _ || _) with false
    by (symmetry; repeat (apply orb_false_intro); lia).
  apply list_lookup_total_correct.
  apply (writes_lookup (cellOf w) (λ _ k, f (fst k) (snd k)) _ _ (x, y)).
  - apply (NoDup_cells (w, h)).
  - by apply elem_of_pixels.
  - rewrite length_replicate. unfold cellOf. simpl. nia.
  - done.
Qed.

Lemma forEachPixel_shape size f c :
  Channel.name (forEachPixel size f c) = Channel.name c ∧
  Channel.cols (forEachPixel size f c) = Channel.cols c ∧
  Channel.rows (forEachPixel size f c) = Channel.rows c ∧
  length (Channel.data (forEachPixel size f c)) = length (Channel.data c).
Proof. rewrite forEachPixel_writes. simpl. by rewrite length_writes. Qed.

(** ** The channel compositor *)

Lemma lookup_zip_fmap {A B} (f : A → B) (l : list A) i :
  zip (f <$> l) l !! i = (λ n, (f n, n)) <$> l !! i.
Proof.
  revert i. induction l as [|a l IH]; intros [|i]; simpl; auto.
Qed.

Lemma compositeWithReference_shape image reference metric pp onlyAlpha size offset
  refs i r n c :
  compositeWithReference image reference metric pp onlyAlpha size offset refs i r n
  = Some c →
  Channel.name c = Channel.name r ∧ Channel.cols c = Channel.cols r ∧
  Channel.rows c = Channel.rows r ∧
  length (Channel.data c) = length (Channel.data r).
Proof.
  unfold compositeWithReference. intros H.
  destruct (hasPixels size); simpl in H; [|by injection H as <-].
  destruct (Image.channel image n) as [chan|]; [|done]. simpl in H.
  destruct (refs !! i) as [rn|].
  - destruct (Image.channel reference rn) as [rc|]; [|done]. simpl in H.
    destruct (negb onlyAlpha && isAlphaName r); injection H as <-;
      apply forEachPixel_shape.
  - destruct (negb onlyAlpha && isAlphaName r); injection H as <-;
      apply forEachPixel_shape.
Qed.

Lemma channelsFromImages_reference_lookup image reference group metric pp result i c :
  channelsFromImages (Some image) (Some reference) group metric pp = Some result →
  result !! i = Some c →
  ∃ channelName,
    Image.channelsInGroup image group !! i = Some channelName ∧
    compositeWithReference image reference metric pp
      (forallb isAlphaName
         ((λ n, Channel.create (toUpper (Channel.tail n)) (Image.size image))
            <$> Image.channelsInGroup image group))
      (Image.size image)
      (centeringOffset (Image.size reference) (Image.size image))
      (Image.channelsInGroup reference group) i
      (Channel.create (toUpper (Channel.tail channelName)) (Image.size image))
      channelName = Some c.
Proof.
  unfold channelsFromImages. intros Hm Hi.
  apply mapM_Some_1 in Hm.
  destruct (Forall2_lookup_r _ _ _ _ _ Hm Hi) as (o & Ho & ->).
  rewrite list_lookup_imap, lookup_zip_fmap in Ho.
  destruct (Image.channelsInGroup image group !! i) as [n|]; [|done].
  simpl in Ho. injection Ho as Ho. eauto.
Qed.

Lemma channelsFromImages_reference_names image reference group metric pp result :
  channelsFromImages (Some image) (Some reference) group metric pp = Some result →
  forallb isAlphaName
    ((λ n, Channel.create (toUpper (Channel.tail n)) (Image.size image))
       <$> Image.channelsInGroup image group) = true
  ↔ entirelyAlpha result.
Proof.
  intros Hm. unfold entirelyAlpha.
  assert (Forall2 (λ r c, Channel.name r = Channel.name c)
            ((λ n, Channel.create (toUpper (Channel.tail n)) (Image.size image))
               <$> Image.channelsInGroup image group) result) as HF.
  { apply Forall2_same_length_lookup. split.
    - unfold channelsFromImages in Hm. apply mapM_Some_1 in Hm.
      apply Forall2_length in Hm.
      rewrite length_imap, length_zip, length_fmap in Hm.
      rewrite length_fmap. lia.
    - intros i r c Hr Hc.
      destruct (channelsFromImages_reference_lookup _ _ _ _ _ _ _ _ Hm Hc)
        as (n & Hn & Hcomp).
      rewrite list_lookup_fmap, Hn in Hr. injection Hr as <-.
      apply compositeWithReference_shape in Hcomp as (-> & _). done. }
  rewrite <- Is_true_true, forallb_True.
  split; intros H.
  - eapply Forall2_Forall_r; [exact HF|]. eapply Forall_impl; [exact H|].
    intros r Hr c <-. unfold isAlphaName in Hr. by apply String.eqb_eq, Is_true_true.
  - eapply Forall2_Forall_l; [exact HF|]. eapply Forall_impl; [exact H|].
    intros c Hc r Heq. unfold isAlphaName. rewrite Heq, Hc. done.
Qed.

Lemma sub_self_finite v : F32.is_finite v = true → F32.sub v v = F32.zero.
Proof.
  destruct v as [[]|[]| |s m e]; try done. intros _.
  unfold F32.sub, SFsub. by rewrite Z.sub_diag.
Qed.

Lemma in_size_bounds (c : Channel.t) x y :
  0 ≤ x < Channel.cols c → 0 ≤ y < Channel.rows c →
  (Z.ltb x 0 || Z.leb (Channel.cols c) x || Z.ltb y 0 || Z.leb (Channel.rows c) y)
  = false.
Proof. intros. repeat apply orb_false_intro; lia. Qed.

Lemma composite_cell image reference group metric pp result i c x y :
  channelsFromImages (Some image) (Some reference) group metric pp = Some result →
  result !! i = Some c →
  0 ≤ x < fst (Image.size image) → 0 ≤ y < snd (Image.size image) →
  ∃ p (isAlpha : bool),
    primarySample image group i (x, y) = Some p ∧
    (isAlpha = true ↔ ¬ entirelyAlpha result ∧ Channel.name c = "A"%string) ∧
    Channel.evalAt c (x, y)
    = compositeSample isAlpha metric pp p
        ((λ _, referenceSample reference group i
                 (x + fst (centeringOffset (Image.size reference) (Image.size image)),
                  y + snd (centeringOffset (Image.size reference) (Image.size image))))
           <$> Image.channelsInGroup reference group !! i).
Proof.
  intros Hm Hi Hx Hy.
  destruct (channelsFromImages_reference_lookup _ _ _ _ _ _ _ _ Hm Hi)
    as (n & Hn & Hc).
  pose proof (channelsFromImages_reference_names _ _ _ _ _ _ Hm) as Hall.
  pose proof (compositeWithReference_shape _ _ _ _ _ _ _ _ _ _ _ _ Hc)
    as (Hname & _).
  destruct (Image.size image) as [w h] eqn:Hsize. simpl in Hx, Hy.
  set (onlyAlpha := forallb isAlphaName _) in *.
  set (r0 := Channel.create _ _) in *.
  unfold compositeWithReference in Hc.
  replace (hasPixels (w, h)) with true in Hc
    by (symmetry; apply andb_true_intro; simpl; split; lia).
  cbn [negb] in Hc.
  unfold primarySample. rewrite Hn. simpl.
  destruct (Image.channel image n) as [chan|]; [|done]. simpl in Hc |- *.
  exists (Channel.evalAt chan (x, y)), (negb onlyAlpha && isAlphaName r0)%bool.
  split; [done|]. split.
  { rewrite andb_true_iff, negb_true_iff, <- not_true_iff_false, Hall.
    unfold isAlphaName. rewrite String.eqb_eq, Hname. done. }
  unfold referenceSample.
  subst r0.
  destruct (Image.channelsInGroup reference group !! i) as [rn|]; simpl.
  - destruct (Image.channel reference rn) as [rc|]; [|done]. simpl in Hc.
    destruct (negb onlyAlpha && _)%bool; injection Hc as <-;
      by rewrite forEachPixel_evalAt.
  - destruct (negb onlyAlpha && _)%bool; injection Hc as <-;
      by rewrite forEachPixel_evalAt.
Qed.

(** C7, counterexample.  A 1x1 image whose only sample is NaN, used as
    primary and as reference under the metric Error and the identity
    post-processing: the composite sample is NaN, not PostProcessing (0). *)
Lemma composite_of_nan_with_itself :
  samplesAt (0, 0)
    (channelsFromImages (Some nanImage) (Some nanImage) EmptyString Error Identity)
  = Some [("R"%string, F32.nan)]
  ∧ F32.nan ≠ applyPostProcessing (F32.of_Z 0) Identity.
Proof. split; [reflexivity | discriminate]. Qed.

Lemma primary_is_reference_sample image group i x y p :
  primarySample image group i (x, y) = Some p →
  (λ _, referenceSample image group i (x, y)) <$> Image.channelsInGroup image group !! i
  = Some p.
Proof.
  unfold primarySample, referenceSample.
  destruct (Image.channelsInGroup image group !! i) as [n|]; [|done]. simpl.
  destruct (Image.channel image n); [|done]. simpl. congruence.
Qed.

(** C7, amended.  For an image used as both primary and reference with the
    metric Error, every composite sample of a channel that is not averaged as
    alpha equals PostProcessing (0) at every pixel where the image's own
    sample is finite, for every post-processing variant. *)
Theorem composite_of_image_with_itself image group pp result i c x y v :
  channelsFromImages (Some image) (Some image) group Error pp = Some result →
  result !! i = Some c →
  entirelyAlpha result ∨ Channel.name c ≠ "A"%string →
  0 ≤ x < fst (Image.size image) → 0 ≤ y < snd (Image.size image) →
  primarySample image group i (x, y) = Some v →
  F32.is_finite v = true →
  Channel.evalAt c (x, y) = applyPostProcessing (F32.of_Z 0) pp.
Proof.
  intros Hm Hi Hna Hx Hy Hv Hfin.
  destruct (composite_cell _ _ _ _ _ _ _ _ x y Hm Hi Hx Hy)
    as (p & isAlpha & Hp & Halpha & ->).
  rewrite Hv in Hp. injection Hp as <-.
  assert (isAlpha = false) as ->.
  { apply not_true_is_false. intros Ht. apply Halpha in Ht as [H1 H2].
    destruct Hna; contradiction. }
  unfold centeringOffset. rewrite !Z.sub_diag. change (0 ÷ 2) with 0. simpl.
  rewrite !Z.add_0_r.
  rewrite (primary_is_reference_sample _ _ _ _ _ _ Hv). simpl.
  unfold applyMetric. by rewrite sub_self_finite.
Qed.

Lemma composite_of_image_with_itself_witness :
  Channel.evalAt (Channel.make "R" 2 2 [F32.zero; F32.zero; F32.zero; F32.nan]) (1, 0)
  = applyPostProcessing (F32.of_Z 0) Square.
Proof.
  apply (composite_of_image_with_itself exampleImage EmptyString Square
           [Channel.make "R" 2 2 [F32.zero; F32.zero; F32.zero; F32.nan]] 0
           _ 1 0 (F32.of_Z 2)).
  - reflexivity.
  - reflexivity.
  - right. discriminate.
  - simpl. lia.
  - simpl. lia.
  - reflexivity.
  - reflexivity.
Defined.

(** C8, counterexample.  The primary has the channels R and A, the reference
    only R: the composite alpha sample is the primary's alpha, 1, and not
    0.5 * (1 + 0). *)
Lemma alpha_without_reference_channel :
  samplesAt (0, 0)
    (channelsFromImages (Some primaryRA) (Some referenceR) EmptyString Error Identity)
  = Some [("R"%string, F32.of_Z (-4)); ("A"%string, F32.of_Z 1)]
  ∧ primarySample primaryRA EmptyString 1 (0, 0) = Some (F32.of_Z 1)
  ∧ centeringOffset (Image.size referenceR) (Image.size primaryRA) = (0, 0)
  ∧ F32.of_Z 1
    ≠ F32.mul (F32.lit 1 2)
        (F32.add (F32.of_Z 1) (referenceSample referenceR EmptyString 1 (0 + 0, 0 + 0))).
Proof. split_and!; [reflexivity | reflexivity | reflexivity | discriminate]. Qed.

(** C8, amended.  With a reference present, a composite channel named "A"
    of a composite that is not entirely alpha holds, at every pixel,
    0.5 * (primary sample + reference sample at pixel + offset) when the
    reference has a channel at the same index, and the primary sample itself
    when it has none; offset is (referenceSize - primarySize) / 2.  Neither
    value involves the metric or the post-processing. *)
Theorem composite_alpha_channel image reference group metric pp result i c x y :
  channelsFromImages (Some image) (Some reference) group metric pp = Some result →
  result !! i = Some c →
  Channel.name c = "A"%string → ¬ entirelyAlpha result →
  0 ≤ x < fst (Image.size image) → 0 ≤ y < snd (Image.size image) →
  ∃ p, primarySample image group i (x, y) = Some p ∧
    Channel.evalAt c (x, y)
    = match Image.channelsInGroup reference group !! i with
      | Some _ =>
          let offset := centeringOffset (Image.size reference) (Image.size image) in
          F32.mul (F32.lit 1 2)
            (F32.add p (referenceSample reference group i
                          (x + fst offset, y + snd offset)))
      | None => p
      end.
Proof.
  intros Hm Hi Hname Hnot Hx Hy.
  destruct (composite_cell _ _ _ _ _ _ _ _ x y Hm Hi Hx Hy)
    as (p & isAlpha & Hp & Halpha & ->).
  exists p. split; [done|].
  assert (isAlpha = true) as -> by (by apply Halpha).
  by destruct (Image.channelsInGroup reference group !! i).
Qed.

Lemma composite_alpha_channel_witness :
  ∃ p, primarySample primaryRA EmptyString 1 (0, 0) = Some p ∧
    Channel.evalAt (Channel.make "A" 1 1 [F32.lit 1 2]) (0, 0)
    = match Image.channelsInGroup referenceRA EmptyString !! 1%nat with
      | Some _ =>
          let offset :=
            centeringOffset (Image.size referenceRA) (Image.size primaryRA) in
          F32.mul (F32.lit 1 2)
            (F32.add p (referenceSample referenceRA EmptyString 1
                          (0 + fst offset, 0 + snd offset)))
      | None => p
      end.
Proof.
  apply (composite_alpha_channel primaryRA referenceRA EmptyString Error Identity
           [Channel.make "R" 1 1 [F32.of_Z (-4)];
            Channel.make "A" 1 1 [F32.lit 1 2]] 1).
  - reflexivity.
  - reflexivity.
  - reflexivity.
  - intros H. apply Forall_cons in H as [H _]. discriminate H.
  - simpl. lia.
  - simpl. lia.
Defined.

(** ** The flat pixel export *)

Lemma foldl_ext_in {A B} (f g : A → B → A) (a : A) (l : list B) :
  (∀ a x, x ∈ l → f a x = g a x) → foldl f a l = foldl g a l.
Proof.
  revert a. induction l as [|x l IH]; intros a Hfg; [done|].
  cbn. rewrite Hfg by (by left). apply IH. intros. apply Hfg. by right.
Qed.

Lemma elem_of_slots n N i j : (i, j) ∈ slots n N ↔ (i < n ∧ j < N)%nat.
Proof.
  unfold slots. rewrite list_elem_of_bind. split.
  - intros (i' & Hj & Hi). apply list_elem_of_fmap in Hj as (j' & [= -> ->] & Hj).
    apply elem_of_seq in Hi, Hj. lia.
  - intros [Hi Hj]. exists i. split.
    + apply list_elem_of_fmap. exists j. split; [done|]. apply elem_of_seq. lia.
    + apply elem_of_seq. lia.
Qed.

Lemma NoDup_slotCells n N : (n ≤ 4)%nat → NoDup (slotCell <$> slots n N).
Proof.
  intros Hn. apply NoDup_fmap_2_strong.
  - intros [i j] [i' j'] H1%elem_of_slots H2%elem_of_slots Heq.
    unfold slotCell in Heq. simpl in Heq. f_equal; lia.
  - unfold slots. apply NoDup_bind.
    + intros i1 i2 p _ _ H1 H2.
      apply list_elem_of_fmap in H1 as (? & -> & _).
      apply list_elem_of_fmap in H2 as (? & [= -> _] & _). done.
    + intros i _. apply NoDup_fmap_2; [|apply NoDup_seq]. by intros ?? [= ->].
    + apply NoDup_seq.
Qed.

Lemma nested_writes (V : list float → nat → nat → float) r0 n N :
  foldl (λ r i, foldl (λ r j, <[(j * 4 + i)%nat := V r i j]> r) r (seq 0 N))
        r0 (seq 0 n)
  = writes slotCell (λ r s, V r (fst s) (snd s)) r0 (slots n N).
Proof.
  unfold writes, slots. rewrite foldl_bind. apply foldl_ext.
  intros a i. by rewrite foldl_fmap.
Qed.

Lemma fillAlpha_writes N r :
  fillAlpha N r = writes (λ j, (j * 4 + 3)%nat) (λ _ _, F32.of_Z 1) r (seq 0 N).
Proof. reflexivity. Qed.

Section Flatten.
Context (channels : list Channel.t) (N : nat).
Hypothesis Hcount : Forall (λ c, Z.to_nat (Channel.count c) = N) channels.

Lemma interleaveChannels_writes :
  interleaveChannels channels N
  = writes slotCell (λ _ s, channelSample channels (fst s) (snd s))
      (replicate (4 * N) F32.zero) (slots (nChannelsToSave channels) N).
Proof.
  unfold interleaveChannels.
  rewrite <- (nested_writes (λ _ i j, channelSample channels i j)).
  apply foldl_ext_in. intros r i Hi.
  apply elem_of_seq in Hi.
  destruct (channels !! i) as [c|] eqn:Hc.
  - unfold interleaveChannel.
    rewrite (Forall_lookup_1 _ _ _ _ Hcount Hc).
    apply foldl_ext. intros b j. unfold channelSample. by rewrite Hc.
  - apply lookup_ge_None in Hc. unfold nChannelsToSave in Hi. lia.
Qed.

Lemma length_interleaveChannels : length (interleaveChannels channels N) = (4 * N)%nat.
Proof. by rewrite interleaveChannels_writes, length_writes, length_replicate. Qed.

Lemma interleaveChannels_lookup i j :
  (i < 4)%nat → (j < N)%nat →
  interleaveChannels channels N !! (j * 4 + i)%nat
  = Some (channelSample channels i j).
Proof.
  intros Hi Hj. rewrite interleaveChannels_writes.
  destruct (decide (i < nChannelsToSave channels)%nat) as [Hin|Hin].
  - change (j * 4 + i)%nat with (slotCell (i, j)).
    apply (writes_lookup slotCell
             (λ _ s, channelSample channels (fst s) (snd s)) _ _ (i, j)).
    + apply NoDup_slotCells. unfold nChannelsToSave. lia.
    + by apply elem_of_slots.
    + rewrite length_replicate. unfold slotCell. simpl. lia.
    + done.
  - rewrite writes_lookup_other.
    + rewrite lookup_replicate_2 by lia. unfold channelSample.
      rewrite (proj2 (lookup_ge_None channels i)); [done|].
      unfold nChannelsToSave in Hin. lia.
    + intros [i' j'] Hs%elem_of_slots. slot_arith.
Qed.

Lemma length_padAlpha :
  length (padAlpha channels N (interleaveChannels channels N)) = (4 * N)%nat.
Proof.
  unfold padAlpha. destruct (Nat.ltb _ 4); [|apply length_interleaveChannels].
  by rewrite fillAlpha_writes, length_writes, length_interleaveChannels.
Qed.

Lemma padAlpha_lookup_alpha j :
  (j < N)%nat →
  padAlpha channels N (interleaveChannels channels N) !! (j * 4 + 3)%nat
  = Some (alphaSlot channels j).
Proof.
  intros Hj. unfold padAlpha, alphaSlot.
  destruct (Nat.ltb _ 4) eqn:Hn.
  - apply Nat.ltb_lt in Hn.
    rewrite (proj2 (lookup_ge_None channels 3))
      by (unfold nChannelsToSave in Hn; lia).
    rewrite fillAlpha_writes.
    apply (writes_lookup (λ j, (j * 4 + 3)%nat) (λ _ _, F32.of_Z 1) _ _ j).
    + apply (NoDup_fmap_2_strong (λ j, (j * 4 + 3)%nat)); [|apply NoDup_seq].
      intros ?? _ _ ?. lia.
    + apply elem_of_seq. lia.
    + rewrite length_interleaveChannels. lia.
    + done.
  - apply Nat.ltb_ge in Hn. rewrite interleaveChannels_lookup by lia.
    unfold channelSample. destruct (channels !! 3%nat) eqn:Hc; [done|].
    apply lookup_ge_None in Hc. unfold nChannelsToSave in Hn. lia.
Qed.

Lemma padAlpha_lookup_colour i j :
  (i < 3)%nat → (j < N)%nat →
  padAlpha channels N (interleaveChannels channels N) !! (j * 4 + i)%nat
  = Some (channelSample channels i j).
Proof.
  intros Hi Hj. unfold padAlpha.
  destruct (Nat.ltb _ 4); [|apply interleaveChannels_lookup; lia].
  rewrite fillAlpha_writes, writes_lookup_other;
    [apply interleaveChannels_lookup; lia|].
  intros j' _. lia.
Qed.

Lemma divideAlphaOut_writes result :
  divideAlphaOut channels N result
  = writes slotCell (λ r s, divideAlphaAt (fst s) r (snd s)) result
      (slots (Nat.min (nChannelsToSave channels) 3) N).
Proof. apply (nested_writes (λ r i j, divideAlphaAt i r j)). Qed.

Lemma divideAlphaOut_lookup_alpha j :
  (j < N)%nat →
  divideAlphaOut channels N (padAlpha channels N (interleaveChannels channels N))
    !! (j * 4 + 3)%nat
  = Some (alphaSlot channels j).
Proof.
  intros Hj. rewrite divideAlphaOut_writes, writes_lookup_other.
  - by apply padAlpha_lookup_alpha.
  - intros [i' j'] Hs%elem_of_slots. slot_arith.
Qed.

Lemma divideAlphaOut_lookup_colour i j :
  (i < 3)%nat → (j < N)%nat →
  divideAlphaOut channels N (padAlpha channels N (interleaveChannels channels N))
    !! (j * 4 + i)%nat
  = Some (if decide (i < length channels)%nat
          then dividedBy (alphaSlot channels j) (channelSample channels i j)
          else F32.zero).
Proof.
  intros Hi Hj. rewrite divideAlphaOut_writes. case_decide as Hin.
  - change (j * 4 + i)%nat with (slotCell (i, j)).
    rewrite (writes_lookup slotCell
               (λ r s, divideAlphaAt (fst s) r (snd s)) _ _ (i, j)).
    + unfold divideAlphaAt, dividedBy. simpl.
      rewrite (list_lookup_total_correct _ _ _ (padAlpha_lookup_alpha j Hj)).
      by rewrite (list_lookup_total_correct _ _ _ (padAlpha_lookup_colour i j Hi Hj)).
    + apply NoDup_slotCells. lia.
    + apply elem_of_slots. unfold nChannelsToSave. lia.
    + rewrite length_padAlpha. unfold slotCell. simpl. lia.
    + intros [i' j'] b Hs%elem_of_slots Hb. unfold divideAlphaAt. simpl.
      rewrite !list_lookup_total_alt.
      rewrite (Hb (j' * 4 + 3)%nat), (Hb (j' * 4 + i')%nat); [done|by left|].
      right. intros [i2 j2] Hs2%elem_of_slots. slot_arith.
  - rewrite writes_lookup_other.
    + rewrite padAlpha_lookup_colour by done. unfold channelSample.
      by rewrite (proj2 (lookup_ge_None channels i)) by lia.
    + intros [i' j'] Hs%elem_of_slots. slot_arith.
Qed.

(** The layout of the export of a composite with at least one channel. *)
Lemma flattenChannels_layout divideAlpha :
  channels ≠ [] →
  length (flattenChannels channels N divideAlpha) = (4 * N)%nat ∧
  ∀ j, (j < N)%nat →
    flattenChannels channels N divideAlpha !! (j * 4 + 3)%nat
    = Some (alphaSlot channels j) ∧
    ∀ i, (i < 3)%nat →
      flattenChannels channels N divideAlpha !! (j * 4 + i)%nat
      = Some (if decide (i < length channels)%nat
              then if divideAlpha
                   then dividedBy (alphaSlot channels j) (channelSample channels i j)
                   else channelSample channels i j
              else F32.zero).
Proof.
  intros Hne.
  assert (flattenChannels channels N divideAlpha
          = if divideAlpha
            then divideAlphaOut channels N
                   (padAlpha channels N (interleaveChannels channels N))
            else padAlpha channels N (interleaveChannels channels N)) as ->.
  { unfold flattenChannels. by destruct channels. }
  destruct divideAlpha.
  - split; [by rewrite divideAlphaOut_writes, length_writes, length_padAlpha|].
    intros j Hj. split; [by apply divideAlphaOut_lookup_alpha|].
    intros i Hi. by apply divideAlphaOut_lookup_colour.
  - split; [apply length_padAlpha|].
    intros j Hj. split; [by apply padAlpha_lookup_alpha|].
    intros i Hi. rewrite padAlpha_lookup_colour by done.
    case_decide as Hin; [done|]. unfold channelSample.
    by rewrite (proj2 (lookup_ge_None channels i)) by lia.
Qed.

End Flatten.

(** ** The statistics key *)

Lemma metricId_digit m : ∃ c, pretty (metricId m) = String c EmptyString.
Proof. destruct m; vm_compute; eauto. Qed.

Lemma pretty_metricId_inj m1 m2 rest :
  pretty (metricId m1) +:+ rest = pretty (metricId m2) +:+ rest → m1 = m2.
Proof.
  destruct m1, m2; try reflexivity; vm_compute; intros H; discriminate H.
Qed.

Lemma string_app_assoc (a b c : string) : (a +:+ b) +:+ c = a +:+ (b +:+ c).
Proof.
  induction a as [|ch a IH]; [reflexivity|].
  change (String ch ((a +:+ b) +:+ c) = String ch (a +:+ (b +:+ c))).
  by rewrite IH.
Qed.

(** C2, counterexample.  Without a reference image the keys of two requests
    that differ only in the metric are equal. *)
Lemma statisticsKey_metric_collision :
  Error ≠ AbsoluteError ∧
  statisticsKey exampleImage None EmptyString Error Identity false (0, 0) (0, 0)
  = statisticsKey exampleImage None EmptyString AbsoluteError Identity
      false (0, 0) (0, 0).
Proof. split; [discriminate | reflexivity]. Qed.

(** C2, amended.  The key is built from the primary image id, the
    comma-joined channel names, the post-processing id and, when cropping is
    enabled, the four crop corners; the reference image id and the metric id
    are part of it only when a reference image is set.  So two requests that
    differ only in the metric have different keys when a reference is set,
    and the same key when none is. *)
Theorem statisticsKey_metric image reference group m1 m2 pp isCropped cropMin cropMax :
  statisticsKey image reference group m1 pp isCropped cropMin cropMax
  = pretty (Image.id image) +:+ "-"
      +:+ join (Image.channelsInGroup image group) "," +:+ "-"
      +:+ match reference with
          | Some r => pretty (Image.id r) +:+ "-" +:+ pretty (metricId m1) +:+ "-"
          | None => EmptyString
          end
      +:+ pretty (postProcessingId pp)
      +:+ (if isCropped
           then "-crop-" +:+ pretty (fst cropMin) +:+ "-" +:+ pretty (snd cropMin)
                  +:+ "-" +:+ pretty (fst cropMax) +:+ "-" +:+ pretty (snd cropMax)
           else EmptyString)
  ∧ (is_Some reference → m1 ≠ m2 →
     statisticsKey image reference group m1 pp isCropped cropMin cropMax
     ≠ statisticsKey image reference group m2 pp isCropped cropMin cropMax)
  ∧ (reference = None →
     statisticsKey image reference group m1 pp isCropped cropMin cropMax
     = statisticsKey image reference group m2 pp isCropped cropMin cropMax).
Proof.
  split; [|split].
  - unfold statisticsKey, cropSuffix.
    destruct reference, isCropped; by rewrite !string_app_assoc.
  - intros [r ->] Hne Heq. apply Hne. unfold statisticsKey in Heq.
    rewrite !string_app_assoc in Heq.
    repeat apply String.app_inj in Heq.
    revert Heq. apply pretty_metricId_inj.
  - intros ->. reflexivity.
Qed.

Lemma statisticsKey_metric_witness :
  statisticsKey exampleImage (Some exampleImage) EmptyString Error Identity
    false (0, 0) (0, 0)
  ≠ statisticsKey exampleImage (Some exampleImage) EmptyString Division Identity
      false (0, 0) (0, 0)
  ∧ statisticsKey exampleImage None EmptyString Error Identity false (0, 0) (0, 0)
    = statisticsKey exampleImage None EmptyString Division Identity
        false (0, 0) (0, 0).
Proof.
  split.
  - apply (proj1 (proj2 (statisticsKey_metric exampleImage (Some exampleImage) EmptyString
                           Error Division Identity false (0, 0) (0, 0))));
      [eexists; reflexivity | discriminate].
  - apply (proj2 (proj2 (statisticsKey_metric exampleImage None EmptyString Error Division
                           Identity false (0, 0) (0, 0)))); reflexivity.
Defined.

(** ** The statistics cache *)

Lemma canvasStatistics_fields canvas :
  let canvas' := snd (canvasStatistics canvas) in
  mImage canvas' = mImage canvas ∧ mReference canvas' = mReference canvas ∧
  mRequestedChannelGroup canvas' = mRequestedChannelGroup canvas ∧
  mMetric canvas' = mMetric canvas ∧ mPostProcessing canvas' = mPostProcessing canvas ∧
  mIsCropped canvas' = mIsCropped canvas ∧ mCropMin canvas' = mCropMin canvas ∧
  mCropMax canvas' = mCropMax canvas.
Proof.
  unfold canvasStatistics. destruct (mImage canvas) as [image|] eqn:Hi; simpl.
  - destruct (mMeanValues canvas !! canvasKey canvas image); simpl; rewrite ?Hi; tauto.
  - rewrite Hi; tauto.
Qed.

Lemma canvasKey_after canvas image :
  canvasKey (snd (canvasStatistics canvas)) image = canvasKey canvas image.
Proof.
  destruct (canvasStatistics_fields canvas) as (_ & H1 & H2 & H3 & H4 & H5 & H6 & H7).
  unfold canvasKey. by rewrite H1, H2, H3, H4, H5, H6, H7.
Qed.

Lemma canvasStatistics_hit canvas image handle :
  mImage canvas = Some image →
  mMeanValues canvas !! canvasKey canvas image = Some handle →
  canvasStatistics canvas = (Some handle, canvas).
Proof. intros Hi Hk. unfold canvasStatistics. by rewrite Hi, Hk. Qed.

Lemma canvasStatistics_cached canvas image :
  mImage canvas = Some image →
  mMeanValues (snd (canvasStatistics canvas)) !! canvasKey canvas image
  = fst (canvasStatistics canvas).
Proof.
  intros Hi. unfold canvasStatistics. rewrite Hi.
  destruct (mMeanValues canvas !! canvasKey canvas image) eqn:Hk; simpl; [done|].
  by rewrite lookup_insert_eq.
Qed.

Lemma canvasStatistics_invariant canvas :
  cacheInvariant canvas → cacheInvariant (snd (canvasStatistics canvas)).
Proof.
  intros (Hnd & Hlt & Hin). unfold canvasStatistics.
  destruct (mImage canvas) as [image|]; [|done].
  destruct (mMeanValues canvas !! canvasKey canvas image) eqn:Hk; [done|].
  split; [|split]; simpl.
  - apply NoDup_app. split; [done|]. split; [|apply NoDup_singleton].
    intros h Hh ->%list_elem_of_singleton. apply Hlt in Hh. lia.
  - intros h [Hh| ->%list_elem_of_singleton]%elem_of_app; rewrite length_app; simpl.
    + apply Hlt in Hh. lia.
    + lia.
  - intros k h. rewrite lookup_insert. case_decide.
    + intros [= <-]. apply elem_of_app. right. by apply list_elem_of_singleton.
    + intros Hh. apply elem_of_app. left. eauto.
Qed.

(** C5.  A request whose key has an entry returns that entry's handle and
    leaves the canvas, hence the schedule, as it was.  Two successive
    requests return the same handle, the second changes nothing, and that
    handle's computation is scheduled exactly once: once by the first
    request if the key was new, not at all by these requests otherwise. *)
Theorem canvasStatistics_memoizes canvas image :
  mImage canvas = Some image →
  cacheInvariant canvas →
  (∀ handle, mMeanValues canvas !! canvasKey canvas image = Some handle →
     canvasStatistics canvas = (Some handle, canvas))
  ∧ (let first := canvasStatistics canvas in
     let second := canvasStatistics (snd first) in
     ∃ handle,
       fst first = Some handle ∧ fst second = Some handle ∧
       snd second = snd first ∧
       handle ∈ mScheduled (snd second) ∧ NoDup (mScheduled (snd second)) ∧
       mScheduled (snd second)
       = match mMeanValues canvas !! canvasKey canvas image with
         | Some _ => mScheduled canvas
         | None => mScheduled canvas ++ [handle]
         end).
Proof.
  intros Hi Hinv. split; [intros h; by apply canvasStatistics_hit|].
  intros first second.
  pose proof (canvasStatistics_cached canvas image Hi) as Hc.
  pose proof (canvasStatistics_invariant canvas Hinv) as (Hnd & _ & Hin).
  assert (∃ handle, fst first = Some handle) as [handle Hh].
  { subst first. unfold canvasStatistics. rewrite Hi.
    destruct (mMeanValues canvas !! canvasKey canvas image); simpl; eauto. }
  fold first in Hc, Hnd, Hin. rewrite Hh in Hc.
  assert (second = (Some handle, snd first)) as Hs.
  { subst second. apply (canvasStatistics_hit _ image).
    - subst first. by destruct (canvasStatistics_fields canvas) as (-> & _).
    - subst first. by rewrite canvasKey_after. }
  exists handle. rewrite Hs. simpl.
  split_and!; [done | done | done | by eapply Hin | done |].
  subst first. unfold canvasStatistics in Hh |- *. rewrite Hi in Hh |- *.
  destruct (mMeanValues canvas !! canvasKey canvas image); simpl in *; [done|].
  by injection Hh as <-.
Qed.

Lemma canvasStatistics_memoizes_witness :
  (∀ handle,
     mMeanValues (emptyCanvas (Some exampleImage))
       !! canvasKey (emptyCanvas (Some exampleImage)) exampleImage = Some handle →
     canvasStatistics (emptyCanvas (Some exampleImage))
     = (Some handle, emptyCanvas (Some exampleImage)))
  ∧ (let first := canvasStatistics (emptyCanvas (Some exampleImage)) in
     let second := canvasStatistics (snd first) in
     ∃ handle,
       fst first = Some handle ∧ fst second = Some handle ∧
       snd second = snd first ∧
       handle ∈ mScheduled (snd second) ∧ NoDup (mScheduled (snd second)) ∧
       mScheduled (snd second)
       = match mMeanValues (emptyCanvas (Some exampleImage))
                 !! canvasKey (emptyCanvas (Some exampleImage)) exampleImage with
         | Some _ => mScheduled (emptyCanvas (Some exampleImage))
         | None => mScheduled (emptyCanvas (Some exampleImage)) ++ [handle]
         end).
Proof.
  apply (canvasStatistics_memoizes (emptyCanvas (Some exampleImage)) exampleImage).
  - reflexivity.
  - split; [apply NoDup_nil_2 | split]; simpl.
    + intros h Hh. by apply elem_of_nil in Hh.
    + intros k h Hh. by rewrite lookup_empty in Hh.
Defined.

(** ** Tonemapping *)

(** C3.  The [Vector] case has no [break]: for a vector whose norm is not
    zero the value it assigns is overwritten by the [FalseColorPPG] case, so
    the result is that of the [FalseColorPPG] variant and not the sRGB
    encoding of the normalised axes.  For a vector of norm zero the result
    is the vector itself, clamped. *)
Theorem applyTonemap_Vector_runs_into_FalseColorPPG
  (powf : float → float → float) (log2f toSRGB : float → float)
  (turbo : list float) (undef : Z) (value : Vector3f) (gamma : float) :
  applyTonemap powf log2f toSRGB turbo undef value gamma Vector
  = if F32.eqb (V3.norm value) (F32.of_Z 0)
    then V3.cwiseMin (V3.cwiseMax value V3.zero) V3.ones
    else applyTonemap powf log2f toSRGB turbo undef value gamma FalseColorPPG.
Proof.
  unfold applyTonemap, tonemapSwitch.
  by destruct (F32.eqb (V3.norm value) (F32.of_Z 0)).
Qed.


Lemma foldl_set_shape (F : Z → float) (c : Channel.t) (js : list Z) :
  let c' := foldl (λ r j, Channel.set r j (F j)) c js in
  Channel.name c' = Channel.name c ∧ Channel.cols c' = Channel.cols c ∧
  Channel.rows c' = Channel.rows c.
Proof.
  revert c. induction js as [|j js IH]; intros c; [done|].
  cbn. destruct (IH (Channel.set c j (F j))) as (-> & -> & ->). done.
Qed.

Lemma compositePlain_shape image pp r n c :
  compositePlain image pp r n = Some c →
  Channel.name c = Channel.name r ∧ Channel.cols c = Channel.cols r ∧
  Channel.rows c = Channel.rows r.
Proof.
  unfold compositePlain. destruct (Image.channel image n) as [chan|]; [|done].
  simpl. intros [= <-].
  apply (foldl_set_shape (λ j, applyPostProcessing (Channel.eval chan j) pp)).
Qed.

Lemma channelsFromImages_count image reference group metric pp channels :
  channelsFromImages (Some image) reference group metric pp = Some channels →
  Forall (λ c, Channel.count c = Image.count image) channels.
Proof.
  intros Hm. apply Forall_lookup. intros i c Hc.
  unfold Channel.count, Image.count.
  destruct reference as [reference|].
  - destruct (channelsFromImages_reference_lookup _ _ _ _ _ _ _ _ Hm Hc)
      as (n & Hn & Hcomp).
    apply compositeWithReference_shape in Hcomp as (_ & -> & -> & _). done.
  - unfold channelsFromImages in Hm. apply mapM_Some_1 in Hm.
    destruct (Forall2_lookup_r _ _ _ _ _ Hm Hc) as ([r n] & Hrn & Hcomp).
    rewrite lookup_zip_fmap in Hrn.
    destruct (Image.channelsInGroup image group !! i); [|done].
    injection Hrn as <- <-.
    apply compositePlain_shape in Hcomp as (_ & -> & ->). done.
Qed.

(** C10, counterexample.  An image of four pixels and a channel group without
    channels: the export is the empty buffer, which has no alpha slot set to
    1 although fewer than four channels are exported. *)
Lemma export_of_empty_group :
  channelsFromImages (Some exampleImage) None "none" Error Identity = Some []
  ∧ Z.to_nat (Image.count exampleImage) = 4%nat
  ∧ getHdrImageData
      (mkCanvas (Some exampleImage) None "none" Error Identity false (0, 0) (0, 0)
                ∅ [] [])
      false
    = Some [].
Proof. split_and!; reflexivity. Qed.

(** C10, amended.  When an image is set, the export of a composite without
    channels is empty; the export of a composite with at least one channel
    has four floats per pixel, holding the first min (n, 4) composite
    channels interleaved (each colour slot divided by the pixel's alpha slot
    when alpha is divided out, 0 where that alpha is 0), 0 in the colour
    slots that have no channel, and in the fourth slot the fourth composite
    channel when there is one, whatever its name, and 1.0 otherwise.
    Channels beyond the fourth are not read. *)
Theorem getHdrImageData_layout canvas image channels divideAlpha :
  mImage canvas = Some image →
  channelsFromImages (mImage canvas) (mReference canvas)
    (mRequestedChannelGroup canvas) (mMetric canvas) (mPostProcessing canvas)
  = Some channels →
  ∃ result,
    getHdrImageData canvas divideAlpha = Some result ∧
    (channels = [] → result = []) ∧
    (channels ≠ [] →
     length result = (4 * Z.to_nat (Image.count image))%nat ∧
     ∀ j, (j < Z.to_nat (Image.count image))%nat →
       result !! (j * 4 + 3)%nat = Some (alphaSlot channels j) ∧
       ∀ i, (i < 3)%nat →
         result !! (j * 4 + i)%nat
         = Some (if decide (i < length channels)%nat
                 then if divideAlpha
                      then dividedBy (alphaSlot channels j)
                                     (channelSample channels i j)
                      else channelSample channels i j
                 else F32.zero)).
Proof.
  intros Hi Hm. unfold getHdrImageData. rewrite Hi, <- Hi, Hm. simpl.
  eexists. split; [done|]. split; [by intros ->|].
  apply flattenChannels_layout.
  rewrite Hi in Hm. apply channelsFromImages_count in Hm.
  eapply Forall_impl; [exact Hm|]. intros c Hc. simpl in Hc. by rewrite Hc.
Qed.

Lemma getHdrImageData_layout_witness :
  ∃ result,
    getHdrImageData (emptyCanvas (Some exampleImage)) true = Some result ∧
    (exampleComposite = [] → result = []) ∧
    (exampleComposite ≠ [] →
     length result = (4 * Z.to_nat (Image.count exampleImage))%nat ∧
     ∀ j, (j < Z.to_nat (Image.count exampleImage))%nat →
       result !! (j * 4 + 3)%nat = Some (alphaSlot exampleComposite j) ∧
       ∀ i, (i < 3)%nat →
         result !! (j * 4 + i)%nat
         = Some (if decide (i < length exampleComposite)%nat
                 then if true
                      then dividedBy (alphaSlot exampleComposite j)
                                     (channelSample exampleComposite i j)
                      else channelSample exampleComposite i j
                 else F32.zero)).
Proof.
  apply (getHdrImageData_layout (emptyCanvas (Some exampleImage)) exampleImage
           exampleComposite true);
    reflexivity.
Defined.


(** ** The statistics engine *)

Lemma foldl_fixed {A B} (f : A → B → A) (a : A) (l : list B) :
  (∀ x, x ∈ l → f a x = a) → foldl f a l = a.
Proof.
  induction l as [|x l IH]; intros H; [done|].
  cbn. rewrite H by (by left). apply IH. intros. apply H. by right.
Qed.

Lemma accumulateSample_nan acc v :
  F32.isnan v = true → accumulateSample acc v = acc.
Proof. unfold accumulateSample. by intros ->. Qed.

Lemma accumulate_noValidSample image flattened isCropped cropMin cropMax :
  noValidSample image flattened isCropped cropMin cropMax = true →
  cropAccumulator image flattened isCropped cropMin cropMax = accInit.
Proof.
  unfold noValidSample, cropAccumulator, accumulate.
  intros H. apply foldl_fixed. intros channel Hc.
  rewrite forallb_forall in H. apply list_elem_of_In, H in Hc.
  unfold accumulateChannel. apply foldl_fixed. intros y Hy.
  rewrite forallb_forall in Hc. apply list_elem_of_In, Hc in Hy.
  apply foldl_fixed. intros x Hx.
  rewrite forallb_forall in Hy. apply list_elem_of_In, Hy in Hx.
  by apply accumulateSample_nan.
Qed.

(** The statistics in terms of the first pass and the raw histogram. *)
Lemma statisticsOf_fields logf expf undef image flattened isCropped cropMin cropMax :
  let st := statisticsOf logf expf undef image flattened isCropped cropMin cropMax in
  let acc := cropAccumulator image flattened isCropped cropMin cropMax in
  let domain := histogramDomain logf acc in
  mean st = (if Nat.ltb 0 (dataChannelCount flattened)
             then F32.div (accMean acc) (F32.of_Z (accPixelCount acc))
             else F32.of_Z 0) ∧
  maximum st = accMaximum acc ∧
  minimum st = accMinimum acc ∧
  histogramZero st = valToBin logf undef (fst domain) (snd domain) (F32.of_Z 0) ∧
  histogram st
  = if Nat.eqb (dataChannelCount flattened) 0 then []
    else normalizeHistogram
           (divideByBinWidth logf expf (fst domain) (snd domain)
              <$> rawHistogram logf undef image flattened isCropped cropMin cropMax).
Proof.
  unfold statisticsOf, cropAccumulator, rawHistogram, histogramDomain, cropAccumulator.
  destruct (resolveCrop _ _ _ _) as [cmin cmax]. cbn [fst snd].
  by destruct (Nat.eqb (dataChannelCount flattened) 0).
Qed.

(** C9.  When there is at least one data channel and the resolved crop
    rectangle holds no sample other than NaN (in particular when it is
    empty), the computation returns statistics whose mean is 0/0, a NaN,
    whose minimum is still +infinity and whose maximum is still -infinity. *)
Theorem statistics_without_valid_sample (logf expf : float → float) (undef : Z)
  image reference group metric pp isCropped cropMin cropMax flattened :
  channelsFromImages (Some image) reference group metric pp = Some flattened →
  (0 < dataChannelCount flattened)%nat →
  noValidSample image flattened isCropped cropMin cropMax = true →
  ∃ st,
    computeCanvasStatistics logf expf undef (Some image) reference group metric pp
      isCropped cropMin cropMax = Some st ∧
    mean st = F32.nan ∧
    minimum st = F32.infinity ∧
    maximum st = F32.neg_infinity.
Proof.
  intros Hm Hn Hnan. unfold computeCanvasStatistics. rewrite Hm. simpl.
  eexists. split; [done|].
  destruct (statisticsOf_fields logf expf undef image flattened isCropped
              cropMin cropMax) as (-> & -> & -> & _).
  rewrite (accumulate_noValidSample _ _ _ _ _ Hnan).
  apply Nat.ltb_lt in Hn. rewrite Hn. done.
Qed.

Lemma statistics_without_valid_sample_witness :
  ∃ st,
    computeCanvasStatistics (λ x, x) (λ x, x) 0 (Some nanImage) None EmptyString Error
      Identity false (0, 0) (0, 0) = Some st ∧
    mean st = F32.nan ∧
    minimum st = F32.infinity ∧
    maximum st = F32.neg_infinity.
Proof.
  apply (statistics_without_valid_sample (λ x, x) (λ x, x) 0 nanImage None EmptyString
           Error Identity false (0, 0) (0, 0)
           [Channel.make "R" 1 1 [F32.nan]]).
  - reflexivity.
  - vm_compute. lia.
  - reflexivity.
Defined.


(** Small counts are added exactly. *)
Lemma add_ofNat a b :
  (a + b ≤ 8)%nat → F32.add (ofNat a) (ofNat b) = ofNat (a + b).
Proof.
  intros H.
  do 9 (destruct a as [|a];
        [do 9 (destruct b as [|b]; [vm_compute; reflexivity|]); lia|]).
  lia.
Qed.

Lemma valToBin_range logf undef minLog diffLog v :
  0 ≤ valToBin logf undef minLog diffLog v < NUM_BINS.
Proof. unfold valToBin, clampZ, NUM_BINS. lia. Qed.

Lemma foldl_zip_snd {A B C} (f : A → C → A) (a : A) (js : list B) (l : list C) :
  length js = length l →
  foldl (λ a '(j, x), f a x) a (zip js l) = foldl f a l.
Proof.
  revert a js. induction l as [|x l IH]; intros a [|j js] Hlen; try done.
  cbn. apply IH. simpl in Hlen. lia.
Qed.

Lemma accumulateColumn_unweighted indices :
  accumulateColumn None indices
  = foldl (λ column bin, alter (λ h, F32.add h (ofNat 1)) (Z.to_nat bin) column)
          (replicate (Z.to_nat NUM_BINS) (ofNat 0)) indices.
Proof.
  unfold accumulateColumn.
  apply (foldl_zip_snd
           (λ column bin, alter (λ h, F32.add h (ofNat 1)) (Z.to_nat bin) column)).
  by rewrite length_seqZ, Nat2Z.id.
Qed.

Lemma sum_list_alter_S (counts : list nat) (i : nat) :
  (i < length counts)%nat →
  sum_list (alter S i counts) = S (sum_list counts).
Proof.
  revert i. induction counts as [|c counts IH]; intros [|i] Hi; simpl in Hi;
    try lia.
  - reflexivity.
  - change (alter S (S i) (c :: counts)) with (c :: alter S i counts).
    cbn [sum_list sum_list_with]. rewrite IH by lia. lia.
Qed.

(** The occurrence counts after [k] indices: they add up to [k]. *)
Lemma binCounts_sum_go (indices : list Z) (counts : list nat) :
  Forall (λ b, Z.to_nat b < length counts)%nat indices →
  sum_list (foldl (λ counts bin, alter S (Z.to_nat bin) counts) counts indices)
  = (sum_list counts + length indices)%nat.
Proof.
  revert counts. induction indices as [|b indices IH]; intros counts Hb; cbn.
  { lia. }
  apply Forall_cons in Hb as [Hb Hrest].
  rewrite IH by (by rewrite length_alter).
  rewrite sum_list_alter_S by done. lia.
Qed.

Lemma sum_list_replicate_0 n : sum_list (replicate n 0%nat) = 0%nat.
Proof. induction n; simpl; auto. Qed.

Lemma binCounts_sum indices :
  Forall (λ b, 0 ≤ b < NUM_BINS) indices →
  sum_list (binCounts indices) = length indices.
Proof.
  intros Hb. unfold binCounts. rewrite binCounts_sum_go.
  - by rewrite sum_list_replicate_0.
  - eapply Forall_impl; [exact Hb|]. intros b Hr. simpl in Hr.
    rewrite length_replicate. unfold NUM_BINS in *. lia.
Qed.

Lemma elem_le_sum_list (counts : list nat) c :
  c ∈ counts → (c ≤ sum_list counts)%nat.
Proof.
  induction counts as [|c' counts IH]; intros Hc; [by apply elem_of_nil in Hc|].
  apply elem_of_cons in Hc as [->|Hc]; simpl; [lia|]. apply IH in Hc. lia.
Qed.

(** While at most eight samples are counted, the histogram column holds the
    occurrence counts themselves. *)
Lemma column_counts_go (indices : list Z) (counts : list nat) :
  Forall (λ b, Z.to_nat b < length counts)%nat indices →
  (sum_list counts + length indices ≤ 8)%nat →
  foldl (λ column bin, alter (λ h, F32.add h (ofNat 1)) (Z.to_nat bin) column)
        (ofNat <$> counts) indices
  = ofNat <$> foldl (λ counts bin, alter S (Z.to_nat bin) counts) counts indices.
Proof.
  revert counts. induction indices as [|b indices IH]; intros counts Hb Hsum; [done|].
  apply Forall_cons in Hb as [Hb Hrest]. cbn. simpl in Hsum.
  rewrite <- IH.
  - f_equal. symmetry. apply list_fmap_alter.
    apply Forall_forall. intros c Hc. apply elem_le_sum_list in Hc.
    rewrite add_ofNat by lia. f_equal. lia.
  - by rewrite length_alter.
  - rewrite sum_list_alter_S by done. lia.
Qed.

Lemma columnTotal_counts_go (counts : list nat) (a : nat) :
  (a + sum_list counts ≤ 8)%nat →
  foldl F32.add (ofNat a) (ofNat <$> counts) = ofNat (a + sum_list counts).
Proof.
  revert a. induction counts as [|c counts IH]; intros a Hs; simpl in *.
  { f_equal. lia. }
  rewrite add_ofNat by lia. rewrite IH by lia. f_equal. lia.
Qed.

(** Without an alpha channel, the bins of a column of at most eight samples
    add up to the number of samples binned, whatever the bins. *)
Lemma columnTotal_unweighted indices :
  Forall (λ b, 0 ≤ b < NUM_BINS) indices →
  (length indices ≤ 8)%nat →
  columnTotal (accumulateColumn None indices) = ofNat (length indices).
Proof.
  intros Hb Hlen. rewrite accumulateColumn_unweighted.
  assert (Forall (λ b, Z.to_nat b < length (replicate (Z.to_nat NUM_BINS) 0%nat))%nat
            indices) as Hb'.
  { eapply Forall_impl; [exact Hb|]. intros b Hr. simpl in Hr.
    rewrite length_replicate. unfold NUM_BINS in *. lia. }
  change (replicate (Z.to_nat NUM_BINS) (ofNat 0))
    with (ofNat <$> replicate (Z.to_nat NUM_BINS) 0%nat).
  rewrite column_counts_go; [|done|by rewrite sum_list_replicate_0].
  unfold columnTotal. change (F32.of_Z 0) with (ofNat 0).
  fold (binCounts indices).
  rewrite columnTotal_counts_go; rewrite binCounts_sum; done.
Qed.

Lemma columnTotal_binIndices logf undef minLog diffLog numElements channel :
  0 ≤ numElements ≤ 8 →
  columnTotal (accumulateColumn None
                 (binIndices logf undef minLog diffLog numElements channel))
  = F32.of_Z numElements.
Proof.
  intros Hn. rewrite columnTotal_unweighted.
  - unfold binIndices, ofNat. rewrite length_fmap, length_seqZ. f_equal. lia.
  - unfold binIndices. apply Forall_fmap, Forall_forall. intros j _.
    apply valToBin_range.
  - unfold binIndices. rewrite length_fmap, length_seqZ. lia.
Qed.


Lemma computeCanvasStatistics_Some logf expf undef image reference group metric pp
  isCropped cropMin cropMax flattened :
  channelsFromImages (Some image) reference group metric pp = Some flattened →
  computeCanvasStatistics logf expf undef (Some image) reference group metric pp
    isCropped cropMin cropMax
  = Some (statisticsOf logf expf undef image flattened isCropped cropMin cropMax).
Proof. intros Hm. unfold computeCanvasStatistics. by rewrite Hm. Qed.

Lemma rawHistogram_single logf undef image channel isCropped cropMin cropMax :
  isAlphaName channel = false →
  rawHistogram logf undef image [channel] isCropped cropMin cropMax
  = [accumulateColumn None
       (binIndices logf undef
          (fst (histogramDomain logf
                  (cropAccumulator image [channel] isCropped cropMin cropMax)))
          (snd (histogramDomain logf
                  (cropAccumulator image [channel] isCropped cropMin cropMax)))
          (Image.count image) channel)].
Proof.
  intros Hn. unfold rawHistogram, histogramCounts.
  assert (locateAlpha [channel] = ([channel], None)) as Hl.
  { unfold locateAlpha. cbn [forallb]. rewrite Hn. cbn [andb].
    unfold list_find. cbn. 
    destruct (decide (isAlphaName channel = true)) as [He|He]; [congruence|done]. }
  assert (dataChannels [channel] = [channel]) as Hd.
  { unfold dataChannels, dataChannelCount. rewrite Hl. reflexivity. }
  assert (alphaChannelOf [channel] = None) as Ha.
  { unfold alphaChannelOf. rewrite Hl. reflexivity. }
  rewrite Ha, Hd. reflexivity.
Qed.

(** C4, at the 2x2 image with the samples 1, 2, 3, NaN (metric Error, no
    reference, identity post-processing, no crop).  The first pass skips the
    NaN sample: three samples are counted, the mean is 2, the minimum 1 and
    the maximum 3.  The histogram pass does not skip it: before the division
    by the bin widths and the normalisation, the bins of the column add up
    to 4.  This holds whatever [log], [exp] and the conversion of NaN to
    [int] yield. *)
Theorem statistics_of_example_with_nan (logf expf : float → float) (undef : Z) :
  let flattened := exampleComposite in
  let acc := cropAccumulator exampleImage flattened false (0, 0) (0, 0) in
  let domain := histogramDomain logf acc in
  let raw := rawHistogram logf undef exampleImage flattened false (0, 0) (0, 0) in
  ∃ st,
    channelsFromImages (Some exampleImage) None EmptyString Error Identity
    = Some flattened ∧
    computeCanvasStatistics logf expf undef (Some exampleImage) None EmptyString
      Error Identity false (0, 0) (0, 0) = Some st ∧
    mean st = F32.of_Z 2 ∧ minimum st = F32.of_Z 1 ∧ maximum st = F32.of_Z 3 ∧
    accPixelCount acc = 3 ∧
    histogram st
    = normalizeHistogram
        (divideByBinWidth logf expf (fst domain) (snd domain) <$> raw) ∧
    columnTotal <$> raw = [F32.of_Z 4].
Proof.
  intros flattened acc domain raw.
  assert (channelsFromImages (Some exampleImage) None EmptyString Error Identity
          = Some flattened) as Hm by (vm_compute; reflexivity).
  assert (acc = mkAcc (F32.of_Z 6) (F32.of_Z 3) (F32.of_Z 1) 3) as Hacc
    by (vm_compute; reflexivity).
  assert (dataChannelCount flattened = 1%nat) as Hn by (vm_compute; reflexivity).
  exists (statisticsOf logf expf undef exampleImage flattened false (0, 0) (0, 0)).
  split; [exact Hm|].
  split; [by apply computeCanvasStatistics_Some|].
  destruct (statisticsOf_fields logf expf undef exampleImage flattened false
              (0, 0) (0, 0)) as (Hmean & Hmax & Hmin & _ & Hhist).
  fold acc in Hmean, Hmax, Hmin. rewrite Hn in Hmean, Hhist.
  split_and!.
  - rewrite Hmean, Hacc. vm_compute. reflexivity.
  - by rewrite Hmin, Hacc.
  - by rewrite Hmax, Hacc.
  - by rewrite Hacc.
  - exact Hhist.
  - subst raw. unfold flattened, exampleComposite, threePixelComposite.
    rewrite rawHistogram_single by reflexivity.
    cbn [fmap list_fmap]. rewrite columnTotal_binIndices; [done|].
    vm_compute. split; discriminate.
Qed.

(** C1, at the 3x1 image with the samples 1, 2, 3 cropped to its first two
    pixels.  The first pass stays inside the crop rectangle: two samples are
    counted, the mean is 1.5, the minimum 1 and the maximum 2.  The
    histogram pass does not: before the division by the bin widths and the
    normalisation, the bins of the column add up to 3, the number of pixels
    of the whole image. *)
Theorem statistics_of_cropped_image (logf expf : float → float) (undef : Z) :
  let flattened := threePixelComposite in
  let acc := cropAccumulator threePixelImage flattened true (0, 0) (2, 1) in
  let domain := histogramDomain logf acc in
  let raw := rawHistogram logf undef threePixelImage flattened true (0, 0) (2, 1) in
  ∃ st,
    channelsFromImages (Some threePixelImage) None EmptyString Error Identity
    = Some flattened ∧
    computeCanvasStatistics logf expf undef (Some threePixelImage) None
      EmptyString Error Identity true (0, 0) (2, 1) = Some st ∧
    resolveCrop (Image.size threePixelImage) true (0, 0) (2, 1) = ((0, 0), (2, 1)) ∧
    mean st = F32.lit 3 2 ∧ minimum st = F32.of_Z 1 ∧ maximum st = F32.of_Z 2 ∧
    accPixelCount acc = 2 ∧
    histogram st
    = normalizeHistogram
        (divideByBinWidth logf expf (fst domain) (snd domain) <$> raw) ∧
    columnTotal <$> raw = [F32.of_Z 3].
Proof.
  intros flattened acc domain raw.
  assert (channelsFromImages (Some threePixelImage) None EmptyString Error Identity
          = Some flattened) as Hm by (vm_compute; reflexivity).
  assert (acc = mkAcc (F32.of_Z 3) (F32.of_Z 2) (F32.of_Z 1) 2) as Hacc
    by (vm_compute; reflexivity).
  assert (dataChannelCount flattened = 1%nat) as Hn by (vm_compute; reflexivity).
  exists (statisticsOf logf expf undef threePixelImage flattened true (0, 0) (2, 1)).
  split; [exact Hm|].
  split; [by apply computeCanvasStatistics_Some|].
  destruct (statisticsOf_fields logf expf undef threePixelImage flattened true
              (0, 0) (2, 1)) as (Hmean & Hmax & Hmin & _ & Hhist).
  fold acc in Hmean, Hmax, Hmin. rewrite Hn in Hmean, Hhist.
  split_and!.
  - vm_compute. reflexivity.
  - rewrite Hmean, Hacc. vm_compute. reflexivity.
  - by rewrite Hmin, Hacc.
  - by rewrite Hmax, Hacc.
  - by rewrite Hacc.
  - exact Hhist.
  - subst raw. unfold flattened, exampleComposite, threePixelComposite.
    rewrite rawHistogram_single by reflexivity.
    cbn [fmap list_fmap]. rewrite columnTotal_binIndices; [done|].
    vm_compute. split; discriminate.
Qed.

(** * Further properties of the code *)

(** ** The pixel operators *)

Lemma binary_round_aux_sign prec emax s m e l :
  signBit (binary_round_aux prec emax s m e l) = Some s
  ∨ binary_round_aux prec emax s m e l = S754_nan.
Proof.
  unfold binary_round_aux.
  destruct (shr_fexp prec emax m e l) as [mrs' e'].
  destruct (shr_fexp prec emax _ e' loc_Exact) as [mrs'' e''].
  destruct (shr_m mrs''); [by left| |by right].
  destruct (Z.leb e'' (emax - prec)); by left.
Qed.

Lemma mul_self_sign v :
  signBit (F32.mul v v) = Some false ∨ F32.mul v v = S754_nan.
Proof.
  destruct v as [s|s| |s m e]; simpl; try (by right).
  - left. by destruct s.
  - left. by destruct s.
  - unfold F32.mul, SFmul. rewrite xorb_nilpotent. apply binary_round_aux_sign.
Qed.

Lemma abs_sign v : signBit (F32.abs v) = Some false ∨ F32.abs v = S754_nan.
Proof. destruct v; simpl; auto. Qed.

Lemma nonnegative_not_below_zero x :
  signBit x = Some false ∨ x = S754_nan → F32.ltb x (F32.of_Z 0) = false.
Proof. intros [H| ->]; [|done]. by destruct x as [[]|[]| |[] m e]. Qed.

Lemma ltb_irrefl x : F32.ltb x x = false.
Proof.
  destruct x as [[]|[]| |[] m e]; try done; unfold F32.ltb, SFltb; simpl;
    rewrite Z.compare_refl, Pos.compare_cont_refl; done.
Qed.

Lemma min_not_above a b : F32.ltb b (F32.min a b) = false.
Proof.
  unfold F32.min. destruct (F32.ltb b a) eqn:H; [apply ltb_irrefl|done].
Qed.

Lemma compare_cont_Eq m1 m2 : Pos.compare_cont Eq m1 m2 = Pos.compare m1 m2.
Proof. reflexivity. Qed.

(** The comparison of two values that are not NaN is the order of their
    ranks. *)
Lemma ltb_rank a b :
  F32.isnan a = false → F32.isnan b = false →
  F32.ltb a b = true ↔ rankLt (floatRank a) (floatRank b).
Proof.
  intros Ha Hb. unfold F32.ltb, SFltb, rankLt.
  destruct a as [sa|sa| |sa ma ea], b as [sb|sb| |sb mb eb]; try done;
    try (destruct sa); try (destruct sb); simpl; try (split; [done|lia]);
    try (split; [lia|done]); try (split; [intros _; lia|done]).
  - rewrite compare_cont_Eq.
    destruct (Z.compare_spec ea eb) as [->|Hlt|Hgt]; simpl.
    + destruct (Pos.compare_spec ma mb) as [->|Hm|Hm]; simpl; split; try done; lia.
    + split; [done|lia].
    + split; [intros _; lia|done].
  - rewrite compare_cont_Eq.
    destruct (Z.compare_spec ea eb) as [->|Hlt|Hgt]; simpl.
    + destruct (Pos.compare_spec ma mb) as [->|Hm|Hm]; simpl; split; try done; lia.
    + split; [intros _; lia|done].
    + split; [done|lia].
Qed.

Lemma ltb_false_rank a b :
  F32.isnan a = false → F32.isnan b = false →
  F32.ltb a b = false ↔ ¬ rankLt (floatRank a) (floatRank b).
Proof.
  intros Ha Hb. rewrite <- (ltb_rank a b Ha Hb). by destruct (F32.ltb a b).
Qed.

Lemma ltb_nan_l b : F32.ltb F32.nan b = false.
Proof. by destruct b as [[]|[]| |[] m e]. Qed.

Lemma ltb_nan_r a : F32.ltb a F32.nan = false.
Proof. by destruct a as [[]|[]| |[] m e]. Qed.

Lemma isnan_true x : F32.isnan x = true → x = F32.nan.
Proof. by destruct x. Qed.

(** For values that are not NaN, [a <= b] is [!(b < a)]. *)
Lemma leb_not_ltb a b :
  F32.isnan a = false → F32.isnan b = false →
  floatLeb a b = negb (F32.ltb b a).
Proof.
  intros Ha Hb. unfold floatLeb, SFleb, F32.ltb, SFltb.
  destruct a as [sa|sa| |sa ma ea], b as [sb|sb| |sb mb eb]; try done;
    try (destruct sa); try (destruct sb); simpl; try done.
  - change (PosDef.Pos.compare_cont Eq ma mb) with (Pos.compare ma mb).
    change (PosDef.Pos.compare_cont Eq mb ma) with (Pos.compare mb ma).
    destruct (Z.compare_spec ea eb), (Z.compare_spec eb ea); try lia;
      cbn [CompOpp negb]; try done.
    destruct (Pos.compare_spec ma mb), (Pos.compare_spec mb ma); try lia; done.
  - change (PosDef.Pos.compare_cont Eq ma mb) with (Pos.compare ma mb).
    change (PosDef.Pos.compare_cont Eq mb ma) with (Pos.compare mb ma).
    destruct (Z.compare_spec ea eb), (Z.compare_spec eb ea); try lia;
      cbn [CompOpp negb]; try done.
    destruct (Pos.compare_spec ma mb), (Pos.compare_spec mb ma); try lia; done.
Qed.

Lemma min_isnan a b : F32.isnan a = false → F32.isnan (F32.min a b) = false.
Proof.
  intros Ha. unfold F32.min. destruct (F32.ltb b a) eqn:H; [|done].
  destruct b; try done.
Qed.

(** X1.  The post-processing operators are bounded: whatever the sample,
    the result of [Clip10] is never above 10, the result of [Clip100] never
    above 100 and the result of [Square] never below 0.  For a sample that
    is not a NaN the clipped result is less than or equal to the bound; a
    NaN sample is not clipped. *)
Theorem applyPostProcessing_bounds (v : float) :
  F32.ltb (F32.of_Z 10) (applyPostProcessing v Clip10) = false ∧
  F32.ltb (F32.of_Z 100) (applyPostProcessing v Clip100) = false ∧
  F32.ltb (applyPostProcessing v Square) (F32.of_Z 0) = false ∧
  (F32.isnan v = false →
   floatLeb (applyPostProcessing v Clip10) (F32.of_Z 10) = true ∧
   floatLeb (applyPostProcessing v Clip100) (F32.of_Z 100) = true).
Proof.
  split_and!.
  - apply min_not_above.
  - apply min_not_above.
  - apply nonnegative_not_below_zero, mul_self_sign.
  - intros Hv. unfold applyPostProcessing. split.
    + rewrite leb_not_ltb; [by rewrite min_not_above | by apply min_isnan | done].
    + rewrite leb_not_ltb; [by rewrite min_not_above | by apply min_isnan | done].
Qed.

Lemma applyPostProcessing_bounds_witness :
  floatLeb (applyPostProcessing (F32.of_Z 12) Clip10) (F32.of_Z 10) = true ∧
  floatLeb (applyPostProcessing (F32.of_Z 12) Clip100) (F32.of_Z 100) = true.
Proof.
  apply (applyPostProcessing_bounds (F32.of_Z 12)). reflexivity.
Defined.

Lemma binary_round_aux_opp prec emax s m e l :
  binary_round_aux prec emax (negb s) m e l
  = SFopp (binary_round_aux prec emax s m e l).
Proof.
  unfold binary_round_aux.
  destruct (shr_fexp prec emax m e l) as [mrs' e'].
  destruct (shr_fexp prec emax _ e' loc_Exact) as [mrs'' e''].
  destruct (shr_m mrs''); [done| |done].
  by destruct (Z.leb e'' (emax - prec)).
Qed.

Lemma binary_normalize_opp prec emax m e :
  m ≠ 0 →
  binary_normalize prec emax (- m) e false
  = SFopp (binary_normalize prec emax m e false).
Proof.
  intros Hm. destruct m as [|p|p]; [done| |]; simpl; unfold binary_round;
    destruct (shl_align _ _ _) as [mz ez].
  - apply (binary_round_aux_opp prec emax false).
  - apply (binary_round_aux_opp prec emax true).
Qed.

(** Swapping the operands of a subtraction negates the difference, unless
    both differences are the positive zero. *)
Lemma sub_swap a b :
  F32.sub b a = F32.opp (F32.sub a b)
  ∨ (F32.sub a b = F32.zero ∧ F32.sub b a = F32.zero).
Proof.
  destruct a as [sa|sa| |sa ma ea], b as [sb|sb| |sb mb eb];
    try (by left);
    try (by (destruct sa, sb; auto));
    try (by (left; simpl; rewrite ?negb_involutive));
    try (by (left; destruct sa));
    try (by (left; destruct sb)).
  unfold F32.sub, SFsub. rewrite (Z.min_comm eb ea).
  set (A := cond_Zopp sa _). set (B := cond_Zopp sb _).
  destruct (decide (A - B = 0)) as [Hz|Hz].
  - right. rewrite Hz. replace (B - A) with 0 by lia. done.
  - left. replace (B - A) with (- (A - B)) by lia.
    by apply binary_normalize_opp.
Qed.

Lemma abs_opp x : F32.abs (F32.opp x) = F32.abs x.
Proof. by destruct x. Qed.

Lemma mul_opp_opp x : F32.mul (F32.opp x) (F32.opp x) = F32.mul x x.
Proof.
  destruct x as [s|s| |s m e]; try done; simpl;
    unfold F32.mul, SFmul; by destruct s.
Qed.

(** X2.  The metrics [AbsoluteError] and [SquaredError] do not depend on
    the order of the image and the reference sample, and their result is
    never below 0. *)
Theorem applyMetric_symmetric_nonnegative (a b : float) :
  applyMetric a b AbsoluteError = applyMetric b a AbsoluteError ∧
  applyMetric a b SquaredError = applyMetric b a SquaredError ∧
  F32.ltb (applyMetric a b AbsoluteError) (F32.of_Z 0) = false ∧
  F32.ltb (applyMetric a b SquaredError) (F32.of_Z 0) = false.
Proof.
  unfold applyMetric. split_and!.
  - destruct (sub_swap a b) as [-> | [-> ->]]; [by rewrite abs_opp | done].
  - destruct (sub_swap a b) as [-> | [-> ->]]; [by rewrite mul_opp_opp | done].
  - apply nonnegative_not_below_zero, abs_sign.
  - apply nonnegative_not_below_zero, mul_self_sign.
Qed.

(** ** Tonemapping *)

Lemma clamp_unit_interval x :
  let c := F32.min (F32.max x F32.zero) F32.one in
  F32.ltb c F32.zero = false ∧ F32.ltb F32.one c = false.
Proof.
  unfold F32.min, F32.max.
  destruct (F32.ltb x F32.zero) eqn:Hx.
  - by change (F32.ltb F32.one F32.zero) with false.
  - destruct (F32.ltb F32.one x) eqn:H1; [done|]. by rewrite Hx.
Qed.

(** X3.  Every component of the colour that [applyTonemap] returns is
    neither below 0 nor above 1: for every tonemap, every gamma and every
    input colour, and whatever [powf], [log2f], [toSRGB] and the colour map
    return. *)
Theorem applyTonemap_range (powf : float → float → float)
  (log2f toSRGB : float → float) (turbo : list float) (undef : Z)
  (value : Vector3f) (gamma : float) (tonemap : ETonemap) :
  let result := applyTonemap powf log2f toSRGB turbo undef value gamma tonemap in
  Forall (λ c, F32.ltb c F32.zero = false ∧ F32.ltb F32.one c = false)
         [vx result; vy result; vz result].
Proof.
  unfold applyTonemap. repeat apply Forall_cons_2; [..|apply Forall_nil_2];
    apply clamp_unit_interval.
Qed.

(** ** The first pass of the statistics *)

Lemma accumulate_cropSamples stride cropMin cropMax channels :
  accumulate stride cropMin cropMax channels
  = foldl accumulateSample accInit (cropSamples stride cropMin cropMax channels).
Proof.
  unfold accumulate, cropSamples. rewrite foldl_bind.
  apply foldl_ext. intros acc channel.
  unfold accumulateChannel. rewrite foldl_bind.
  apply foldl_ext. intros acc' y. by rewrite foldl_fmap.
Qed.

(** The pass is a fold over the samples that are not NaN. *)
Lemma foldl_accumulateSample (samples : list float) (acc : Accumulator) :
  let valid := List.filter (λ v, negb (F32.isnan v)) samples in
  foldl accumulateSample acc samples
  = mkAcc (foldl F32.add (accMean acc) valid)
          (foldl F32.max (accMaximum acc) valid)
          (foldl F32.min (accMinimum acc) valid)
          (accPixelCount acc + Z.of_nat (length valid)).
Proof.
  revert acc. induction samples as [|v samples IH]; intros acc; simpl.
  { destruct acc. simpl. f_equal. lia. }
  rewrite IH. unfold accumulateSample.
  destruct (negb (F32.isnan v)); simpl; [|done]. f_equal. lia.
Qed.

Lemma cropAccumulator_validSamples image flattened isCropped cropMin cropMax :
  let valid := validSamples image flattened isCropped cropMin cropMax in
  cropAccumulator image flattened isCropped cropMin cropMax
  = mkAcc (foldl F32.add (F32.of_Z 0) valid)
          (foldl F32.max F32.neg_infinity valid)
          (foldl F32.min F32.infinity valid)
          (Z.of_nat (length valid)).
Proof.
  unfold cropAccumulator, validSamples.
  by rewrite accumulate_cropSamples, foldl_accumulateSample.
Qed.

Lemma max_isnan a b : F32.isnan a = false → F32.isnan (F32.max a b) = false.
Proof.
  intros Ha. unfold F32.max. destruct (F32.ltb a b) eqn:H; [|done].
  destruct b; try done. by rewrite ltb_nan_r in H.
Qed.

Lemma max_not_below a b : F32.ltb (F32.max a b) b = false.
Proof.
  unfold F32.max. destruct (F32.ltb a b) eqn:H; [apply ltb_irrefl|done].
Qed.

Lemma min_not_above_l a b :
  F32.isnan a = false → F32.isnan b = false → F32.ltb a (F32.min a b) = false.
Proof.
  intros Ha Hb. unfold F32.min. destruct (F32.ltb b a) eqn:H; [|apply ltb_irrefl].
  apply ltb_rank in H; [|done..]. apply ltb_false_rank; [done..|].
  unfold rankLt in *. lia.
Qed.

Lemma max_not_below_l a b :
  F32.isnan a = false → F32.isnan b = false → F32.ltb (F32.max a b) a = false.
Proof.
  intros Ha Hb. unfold F32.max. destruct (F32.ltb a b) eqn:H; [|apply ltb_irrefl].
  apply ltb_rank in H; [|done..]. apply ltb_false_rank; [done..|].
  unfold rankLt in *. lia.
Qed.

Lemma not_ltb_trans a b c :
  F32.isnan a = false → F32.isnan b = false → F32.isnan c = false →
  F32.ltb b a = false → F32.ltb c b = false → F32.ltb c a = false.
Proof.
  intros Ha Hb Hc H1 H2.
  apply ltb_false_rank in H1, H2; [|done..]. apply ltb_false_rank; [done..|].
  unfold rankLt in *. lia.
Qed.

(** The running minimum is below its start and below every sample, and it
    is the start or one of the samples. *)
Lemma foldl_min_spec (valid : list float) (init : float) :
  F32.isnan init = false → Forall (λ v, F32.isnan v = false) valid →
  let m := foldl F32.min init valid in
  F32.isnan m = false ∧ F32.ltb init m = false ∧
  Forall (λ v, F32.ltb v m = false) valid ∧ (m = init ∨ m ∈ valid).
Proof.
  revert init. induction valid as [|v valid IH]; intros init Hi Hv; simpl.
  { split_and!; [done | apply ltb_irrefl | done | by left]. }
  apply Forall_cons in Hv as [Hv Hrest].
  destruct (IH (F32.min init v) (min_isnan init v Hi) Hrest)
    as (Hm & Hle & Hall & Hin).
  split_and!; [done| | |].
  - eapply (not_ltb_trans _ (F32.min init v)); [done|by apply min_isnan|done|done|].
    by apply min_not_above_l.
  - apply Forall_cons. split; [|done].
    eapply (not_ltb_trans _ (F32.min init v)); [done|by apply min_isnan|done|done|].
    apply min_not_above.
  - destruct Hin as [-> | Hin]; [|right; by right].
    unfold F32.min. destruct (F32.ltb v init); [right; by left | by left].
Qed.

Lemma foldl_max_spec (valid : list float) (init : float) :
  F32.isnan init = false → Forall (λ v, F32.isnan v = false) valid →
  let m := foldl F32.max init valid in
  F32.isnan m = false ∧ F32.ltb m init = false ∧
  Forall (λ v, F32.ltb m v = false) valid ∧ (m = init ∨ m ∈ valid).
Proof.
  revert init. induction valid as [|v valid IH]; intros init Hi Hv; simpl.
  { split_and!; [done | apply ltb_irrefl | done | by left]. }
  apply Forall_cons in Hv as [Hv Hrest].
  destruct (IH (F32.max init v) (max_isnan init v Hi) Hrest)
    as (Hm & Hle & Hall & Hin).
  split_and!; [done| | |].
  - eapply (not_ltb_trans _ (F32.max init v)); [done|by apply max_isnan|done| |done].
    by apply max_not_below_l.
  - apply Forall_cons. split; [|done].
    eapply (not_ltb_trans _ (F32.max init v)); [done|by apply max_isnan|done| |done].
    apply max_not_below.
  - destruct Hin as [-> | Hin]; [|right; by right].
    unfold F32.max. destruct (F32.ltb init v); [right; by left | by left].
Qed.

Lemma validSamples_not_nan image flattened isCropped cropMin cropMax :
  Forall (λ v, F32.isnan v = false)
         (validSamples image flattened isCropped cropMin cropMax).
Proof.
  unfold validSamples. apply Forall_forall. intros v Hv.
  apply list_elem_of_In, filter_In in Hv as [_ Hv]. by apply negb_true_iff.
Qed.

Lemma ltb_infinity v : F32.isnan v = false → F32.ltb F32.infinity v = false.
Proof. by destruct v as [[]|[]| |[] m e]. Qed.

(** X4.  When the composite of an image exists, its statistics exist, and
    their mean is the sum of the samples of the crop region that are not
    NaN, taken over the data channels in the order of the loops and started
    from 0, divided by the number of these samples; without a data channel
    the mean is 0. *)
Theorem statistics_mean (logf expf : float → float) (undef : Z)
  image reference group metric pp isCropped cropMin cropMax flattened :
  channelsFromImages (Some image) reference group metric pp = Some flattened →
  ∃ st,
    computeCanvasStatistics logf expf undef (Some image) reference group metric pp
      isCropped cropMin cropMax = Some st ∧
    let valid := validSamples image flattened isCropped cropMin cropMax in
    mean st
    = if Nat.ltb 0 (dataChannelCount flattened)
      then F32.div (foldl F32.add (F32.of_Z 0) valid)
                   (F32.of_Z (Z.of_nat (length valid)))
      else F32.of_Z 0.
Proof.
  intros Hm. eexists. split; [by apply computeCanvasStatistics_Some|].
  destruct (statisticsOf_fields logf expf undef image flattened isCropped
              cropMin cropMax) as (-> & _).
  by rewrite cropAccumulator_validSamples.
Qed.

Lemma statistics_mean_witness :
  ∃ st,
    computeCanvasStatistics (λ x, x) (λ x, x) 0 (Some exampleImage) None
      EmptyString Error Identity false (0, 0) (0, 0) = Some st ∧
    let valid := validSamples exampleImage exampleComposite false (0, 0) (0, 0) in
    mean st
    = if Nat.ltb 0 (dataChannelCount exampleComposite)
      then F32.div (foldl F32.add (F32.of_Z 0) valid)
                   (F32.of_Z (Z.of_nat (length valid)))
      else F32.of_Z 0.
Proof.
  apply (statistics_mean (λ x, x) (λ x, x) 0 exampleImage None EmptyString Error
           Identity false (0, 0) (0, 0) exampleComposite).
  reflexivity.
Defined.

(** X5.  The minimum of the statistics is not above any sample of the crop
    region that is not a NaN, and the maximum is not below any of them.
    Both are attained: each is one of these samples; when there is none the
    minimum is plus infinity and the maximum minus infinity. *)
Theorem statistics_extrema (logf expf : float → float) (undef : Z)
  image reference group metric pp isCropped cropMin cropMax flattened :
  channelsFromImages (Some image) reference group metric pp = Some flattened →
  ∃ st,
    computeCanvasStatistics logf expf undef (Some image) reference group metric pp
      isCropped cropMin cropMax = Some st ∧
    let valid := validSamples image flattened isCropped cropMin cropMax in
    Forall (λ v, F32.ltb v (minimum st) = false ∧ F32.ltb (maximum st) v = false)
           valid ∧
    match valid with
    | [] => minimum st = F32.infinity ∧ maximum st = F32.neg_infinity
    | _ => minimum st ∈ valid ∧ maximum st ∈ valid
    end.
Proof.
  intros Hm. eexists. split; [by apply computeCanvasStatistics_Some|].
  destruct (statisticsOf_fields logf expf undef image flattened isCropped
              cropMin cropMax) as (_ & -> & -> & _).
  rewrite cropAccumulator_validSamples. simpl.
  pose proof (validSamples_not_nan image flattened isCropped cropMin cropMax) as Hv.
  set (valid := validSamples _ _ _ _ _) in *.
  destruct (foldl_min_spec valid F32.infinity eq_refl Hv)
    as (Hmn & Hmi & Hmall & Hmin).
  destruct (foldl_max_spec valid F32.neg_infinity eq_refl Hv)
    as (Hxn & Hxi & Hxall & Hxin).
  split.
  - apply Forall_forall. intros v Hin. split.
    + by apply (proj1 (Forall_forall _ _) Hmall).
    + by apply (proj1 (Forall_forall _ _) Hxall).
  - destruct valid as [|v valid'] eqn:Hvalid; [done|]. split.
    + destruct Hmin as [Heq|Hin]; [|done].
      apply Forall_cons in Hmall as [Hle _], Hv as [Hvn _].
      rewrite Heq in Hle.
      assert (v = F32.infinity) as ->
        by (clear -Hle Hvn; by destruct v as [[]|[]| |[] m e]).
      rewrite Heq. by left.
    + destruct Hxin as [Heq|Hin]; [|done].
      apply Forall_cons in Hxall as [Hle _], Hv as [Hvn _].
      rewrite Heq in Hle.
      assert (v = F32.neg_infinity) as ->
        by (clear -Hle Hvn; by destruct v as [[]|[]| |[] m e]).
      rewrite Heq. by left.
Qed.

Lemma statistics_extrema_witness :
  ∃ st,
    computeCanvasStatistics (λ x, x) (λ x, x) 0 (Some exampleImage) None
      EmptyString Error Identity false (0, 0) (0, 0) = Some st ∧
    let valid := validSamples exampleImage exampleComposite false (0, 0) (0, 0) in
    Forall (λ v, F32.ltb v (minimum st) = false ∧ F32.ltb (maximum st) v = false)
           valid ∧
    match valid with
    | [] => minimum st = F32.infinity ∧ maximum st = F32.neg_infinity
    | _ => minimum st ∈ valid ∧ maximum st ∈ valid
    end.
Proof.
  apply (statistics_extrema (λ x, x) (λ x, x) 0 exampleImage None EmptyString
           Error Identity false (0, 0) (0, 0) exampleComposite).
  reflexivity.
Defined.

(** ** The alpha search *)

Lemma forallb_isAlphaName channels :
  forallb isAlphaName channels = true ↔ entirelyAlpha channels.
Proof.
  unfold entirelyAlpha. rewrite <- Is_true_true, forallb_True.
  apply Forall_iff. intros c. unfold isAlphaName.
  by rewrite Is_true_true, String.eqb_eq.
Qed.

Lemma length_locateAlpha flattened :
  length (fst (locateAlpha flattened)) = length flattened.
Proof.
  unfold locateAlpha. destruct (forallb isAlphaName flattened); [done|].
  destruct (list_find _ flattened) as [[k channel]|]; [|done].
  destruct (Nat.eqb k (length flattened - 1)); [done|].
  destruct (flattened !! _); [|done]. simpl. by rewrite !length_insert.
Qed.

Lemma length_dataChannels flattened :
  length (dataChannels flattened) = dataChannelCount flattened.
Proof.
  unfold dataChannels. rewrite length_take, length_locateAlpha.
  unfold dataChannelCount. destruct (snd (locateAlpha flattened)); lia.
Qed.

(** X6.  The search for the alpha channel, when the composite is not made
    of alpha channels only and its first channel named [A] is at index [k]:
    the channel is exchanged with the last one, every other channel stays
    where it is, and the data channels are all channels but the last of the
    exchanged list.  The channel whose samples weight the histogram is read
    through the pointer taken before the exchange: it is the channel that
    was the last one. *)
Theorem locateAlpha_found flattened k channel :
  ¬ entirelyAlpha flattened →
  list_find (λ c, isAlphaName c = true) flattened = Some (k, channel) →
  let swapped := fst (locateAlpha flattened) in
  let back := (length flattened - 1)%nat in
  snd (locateAlpha flattened) = Some k ∧
  length swapped = length flattened ∧
  swapped !! back = Some channel ∧
  swapped !! k = (if decide (k = back) then Some channel else flattened !! back) ∧
  (∀ j, j ≠ k → j ≠ back → swapped !! j = flattened !! j) ∧
  dataChannels flattened = take back swapped ∧
  alphaChannelOf flattened = last flattened.
Proof.
  intros Hnot Hfind swapped back.
  apply list_find_Some in Hfind as Hk. destruct Hk as (Hk & _ & _).
  pose proof (lookup_lt_Some _ _ _ Hk) as Hlt.
  assert (forallb isAlphaName flattened = false) as Hf.
  { apply not_true_is_false. by rewrite forallb_isAlphaName. }
  assert (∃ b, flattened !! back = Some b) as [b Hb].
  { apply lookup_lt_is_Some. unfold back. lia. }
  assert (locateAlpha flattened
          = (if decide (k = back) then flattened
             else <[back := channel]> (<[k := b]> flattened), Some k)) as Hloc.
  { unfold locateAlpha. rewrite Hf, Hfind. fold back.
    destruct (Nat.eqb_spec k back) as [->|Hne].
    - by rewrite decide_True.
    - by rewrite Hb, decide_False. }
  unfold alphaChannelOf, dataChannels, dataChannelCount. subst swapped.
  rewrite Hloc. simpl. rewrite last_lookup. fold back.
  replace (Init.Nat.pred (length flattened)) with back by (unfold back; lia).
  case_decide as Hkb.
  - subst k. rewrite Hk in Hb. injection Hb as <-.
    split_and!; try done.
  - rewrite Hb. split_and!; try done.
    + by rewrite !length_insert.
    + apply list_lookup_insert_eq. rewrite length_insert. unfold back. lia.
    + rewrite list_lookup_insert_ne by done. by apply list_lookup_insert_eq.
    + intros j Hj1 Hj2. by rewrite !list_lookup_insert_ne.
    + rewrite list_lookup_insert_ne by done. by apply list_lookup_insert_eq.
Qed.

Lemma locateAlpha_found_witness :
  snd (locateAlpha alphaFirstComposite) = Some 0%nat ∧
  length (fst (locateAlpha alphaFirstComposite)) = length alphaFirstComposite ∧
  fst (locateAlpha alphaFirstComposite) !! (length alphaFirstComposite - 1)%nat
  = Some (Channel.make "A" 1 1 [F32.of_Z 1]) ∧
  fst (locateAlpha alphaFirstComposite) !! 0%nat
  = (if decide (0%nat = (length alphaFirstComposite - 1)%nat)
     then Some (Channel.make "A" 1 1 [F32.of_Z 1])
     else alphaFirstComposite !! (length alphaFirstComposite - 1)%nat) ∧
  (∀ j, j ≠ 0%nat → j ≠ (length alphaFirstComposite - 1)%nat →
        fst (locateAlpha alphaFirstComposite) !! j = alphaFirstComposite !! j) ∧
  dataChannels alphaFirstComposite
  = take (length alphaFirstComposite - 1) (fst (locateAlpha alphaFirstComposite)) ∧
  alphaChannelOf alphaFirstComposite = last alphaFirstComposite.
Proof.
  apply (locateAlpha_found alphaFirstComposite 0
           (Channel.make "A" 1 1 [F32.of_Z 1])).
  - intros H. apply Forall_cons in H as [_ H]. apply Forall_cons in H as [H _].
    discriminate H.
  - reflexivity.
Defined.

(** ** The shape of the histogram *)

Lemma length_accumulateColumn alphaChannel indices :
  length (accumulateColumn alphaChannel indices) = Z.to_nat NUM_BINS.
Proof.
  unfold accumulateColumn.
  generalize (zip (seqZ 0 (Z.of_nat (length indices))) indices).
  intros l.
  assert (∀ column : list float,
            length (foldl (λ column '(j, bin),
                       alter (λ h, F32.add h (sampleWeight alphaChannel j))
                             (Z.to_nat bin) column) column l)
            = length column) as H.
  { induction l as [|[j bin] l IH]; intros column; [done|].
    cbn. by rewrite IH, length_alter. }
  by rewrite H, length_replicate.
Qed.

(** X7.  The histogram of the statistics has one column per data channel,
    every column has 400 bins, and the bin of the value zero is a valid bin
    index. *)
Theorem histogram_shape (logf expf : float → float) (undef : Z)
  image reference group metric pp isCropped cropMin cropMax flattened :
  channelsFromImages (Some image) reference group metric pp = Some flattened →
  ∃ st,
    computeCanvasStatistics logf expf undef (Some image) reference group metric pp
      isCropped cropMin cropMax = Some st ∧
    length (histogram st) = dataChannelCount flattened ∧
    Forall (λ column, length column = 400%nat) (histogram st) ∧
    0 ≤ histogramZero st < 400.
Proof.
  intros Hm. eexists. split; [by apply computeCanvasStatistics_Some|].
  destruct (statisticsOf_fields logf expf undef image flattened isCropped
              cropMin cropMax) as (_ & _ & _ & -> & ->).
  split_and!.
  - destruct (Nat.eqb_spec (dataChannelCount flattened) 0) as [->|_]; [done|].
    unfold normalizeHistogram, rawHistogram, histogramCounts.
    by rewrite !length_fmap, length_dataChannels.
  - destruct (Nat.eqb (dataChannelCount flattened) 0); [done|].
    unfold normalizeHistogram, rawHistogram, histogramCounts.
    rewrite <- !list_fmap_compose. apply Forall_fmap, Forall_forall.
    intros channel _. simpl.
    unfold divideByBinWidth.
    by rewrite length_fmap, length_imap, length_accumulateColumn.
  - apply valToBin_range.
  - apply valToBin_range.
Qed.

Lemma histogram_shape_witness :
  ∃ st,
    computeCanvasStatistics (λ x, x) (λ x, x) 0 (Some exampleImage) None
      EmptyString Error Identity false (0, 0) (0, 0) = Some st ∧
    length (histogram st) = dataChannelCount exampleComposite ∧
    Forall (λ column, length column = 400%nat) (histogram st) ∧
    0 ≤ histogramZero st < 400.
Proof.
  apply (histogram_shape (λ x, x) (λ x, x) 0 exampleImage None EmptyString
           Error Identity false (0, 0) (0, 0) exampleComposite).
  reflexivity.
Defined.

(** ** The channel compositor, continued *)

Lemma foldl_set_writes (F : Z → float) (c : Channel.t) (js : list Z) :
  foldl (λ r j, Channel.set r j (F j)) c js
  = Channel.make (Channel.name c) (Channel.cols c) (Channel.rows c)
      (writes Z.to_nat (λ _ j, F j) (Channel.data c) js).
Proof.
  revert c. induction js as [|j js IH]; intros c; [by destruct c|].
  cbn. rewrite IH. reflexivity.
Qed.

Lemma channelsFromImages_plain_lookup image group metric pp result i c :
  channelsFromImages (Some image) None group metric pp = Some result →
  result !! i = Some c →
  ∃ channelName,
    Image.channelsInGroup image group !! i = Some channelName ∧
    compositePlain image pp
      (Channel.create (toUpper (Channel.tail channelName)) (Image.size image))
      channelName = Some c.
Proof.
  unfold channelsFromImages. intros Hm Hi.
  apply mapM_Some_1 in Hm.
  destruct (Forall2_lookup_r _ _ _ _ _ Hm Hi) as ([r n] & Hrn & Hcomp).
  rewrite lookup_zip_fmap in Hrn.
  destruct (Image.channelsInGroup image group !! i) as [n'|]; [|done].
  injection Hrn as <- <-. eauto.
Qed.

Lemma channelsFromImages_length image reference group metric pp result :
  channelsFromImages (Some image) reference group metric pp = Some result →
  length result = length (Image.channelsInGroup image group).
Proof.
  unfold channelsFromImages. intros Hm. destruct reference.
  - apply mapM_Some_1, Forall2_length in Hm.
    rewrite length_imap, length_zip, length_fmap in Hm. lia.
  - apply mapM_Some_1, Forall2_length in Hm.
    rewrite length_zip, length_fmap in Hm. lia.
Qed.

(** X8.  The composite has one channel per channel of the requested group
    of the image, in the same order; each is named by the upper-case tail
    of the name of the image channel and has the size of the image,
    whether or not there is a reference. *)
Theorem channelsFromImages_shape image reference group metric pp result :
  channelsFromImages (Some image) reference group metric pp = Some result →
  Channel.name <$> result
  = (λ n, toUpper (Channel.tail n)) <$> Image.channelsInGroup image group ∧
  Forall (λ c, Channel.cols c = fst (Image.size image) ∧
               Channel.rows c = snd (Image.size image) ∧
               length (Channel.data c) = Z.to_nat (Image.count image))
         result.
Proof.
  intros Hm.
  assert (∀ i c, result !! i = Some c →
            ∃ n, Image.channelsInGroup image group !! i = Some n ∧
                 Channel.name c = toUpper (Channel.tail n) ∧
                 Channel.cols c = fst (Image.size image) ∧
                 Channel.rows c = snd (Image.size image) ∧
                 length (Channel.data c) = Z.to_nat (Image.count image)) as Hcell.
  { intros i c Hc. destruct reference as [reference|].
    - destruct (channelsFromImages_reference_lookup _ _ _ _ _ _ _ _ Hm Hc)
        as (n & Hn & Hcomp).
      apply compositeWithReference_shape in Hcomp as (-> & -> & -> & ->).
      exists n. simpl. by rewrite length_replicate.
    - destruct (channelsFromImages_plain_lookup _ _ _ _ _ _ _ Hm Hc)
        as (n & Hn & Hcomp).
      exists n. split; [done|]. unfold compositePlain in Hcomp.
      destruct (Image.channel image n) as [chan|]; [|done]. simpl in Hcomp.
      injection Hcomp as <-. rewrite foldl_set_writes. simpl.
      by rewrite length_writes, length_replicate. }
  split.
  - apply list_eq. intros i. rewrite !list_lookup_fmap.
    destruct (result !! i) as [c|] eqn:Hc; simpl.
    + destruct (Hcell i c Hc) as (n & -> & -> & _). done.
    + apply lookup_ge_None in Hc.
      rewrite (channelsFromImages_length _ _ _ _ _ _ Hm) in Hc.
      by rewrite (proj2 (lookup_ge_None _ _) Hc).
  - apply Forall_lookup. intros i c Hc.
    destruct (Hcell i c Hc) as (n & _ & _ & ? & ? & ?). done.
Qed.

Lemma channelsFromImages_shape_witness :
  Channel.name <$> exampleComposite
  = (λ n, toUpper (Channel.tail n))
      <$> Image.channelsInGroup exampleImage EmptyString ∧
  Forall (λ c, Channel.cols c = fst (Image.size exampleImage) ∧
               Channel.rows c = snd (Image.size exampleImage) ∧
               length (Channel.data c) = Z.to_nat (Image.count exampleImage))
         exampleComposite.
Proof.
  apply (channelsFromImages_shape exampleImage None EmptyString Error Identity
           exampleComposite).
  reflexivity.
Defined.

(** X9.  Without a reference, every channel of the composite comes from the
    image channel at the same position of the group, and each of its
    samples is the post-processed sample of that image channel; the metric
    plays no role. *)
Theorem composite_without_reference image group metric pp result i c j :
  channelsFromImages (Some image) None group metric pp = Some result →
  result !! i = Some c →
  ∃ channelName chan,
    Image.channelsInGroup image group !! i = Some channelName ∧
    Image.channel image channelName = Some chan ∧
    (0 ≤ j < Channel.count chan → j < Image.count image →
     Channel.eval c j = applyPostProcessing (Channel.eval chan j) pp).
Proof.
  intros Hm Hc.
  destruct (channelsFromImages_plain_lookup _ _ _ _ _ _ _ Hm Hc)
    as (n & Hn & Hcomp).
  unfold compositePlain in Hcomp.
  destruct (Image.channel image n) as [chan|] eqn:Hchan; [|done].
  simpl in Hcomp. injection Hcomp as <-.
  exists n, chan. split_and!; [done..|]. intros Hj Hlt.
  rewrite foldl_set_writes. unfold Channel.eval at 1. simpl.
  unfold Image.count, Channel.count in *. simpl.
  replace (Z.leb _ j) with false by (symmetry; apply Z.leb_gt; lia).
  apply list_lookup_total_correct.
  apply (writes_lookup Z.to_nat
           (λ _ j, applyPostProcessing (Channel.eval chan j) pp) _ _ j).
  - apply NoDup_fmap_2_strong; [|apply NoDup_seqZ].
    intros a b Ha%elem_of_seqZ Hb%elem_of_seqZ Heq. lia.
  - apply elem_of_seqZ. lia.
  - rewrite length_replicate. lia.
  - done.
Qed.

Lemma composite_without_reference_witness :
  ∃ channelName chan,
    Image.channelsInGroup exampleImage EmptyString !! 0%nat = Some channelName ∧
    Image.channel exampleImage channelName = Some chan ∧
    (0 ≤ 2 < Channel.count chan → 2 < Image.count exampleImage →
     Channel.eval (Channel.make "R" 2 2 [F32.of_Z 1; F32.of_Z 4; F32.of_Z 9; F32.nan]) 2
     = applyPostProcessing (Channel.eval chan 2) Square).
Proof.
  apply (composite_without_reference exampleImage EmptyString Error Square
           [Channel.make "R" 2 2 [F32.of_Z 1; F32.of_Z 4; F32.of_Z 9; F32.nan]] 0);
    reflexivity.
Defined.

(** X10.  With a reference, every sample of a composite channel that is
    not treated as alpha is the post-processed metric of the image sample
    and of the reference sample at the pixel shifted by the centering
    offset; where the reference has no channel at that position of the
    group, the metric is taken against 0. *)
Theorem composite_data_channel image reference group metric pp result i c x y :
  channelsFromImages (Some image) (Some reference) group metric pp = Some result →
  result !! i = Some c →
  entirelyAlpha result ∨ Channel.name c ≠ "A"%string →
  0 ≤ x < fst (Image.size image) → 0 ≤ y < snd (Image.size image) →
  ∃ p, primarySample image group i (x, y) = Some p ∧
    Channel.evalAt c (x, y)
    = applyPostProcessing
        (applyMetric p
           match Image.channelsInGroup reference group !! i with
           | Some _ =>
               let offset :=
                 centeringOffset (Image.size reference) (Image.size image) in
               referenceSample reference group i (x + fst offset, y + snd offset)
           | None => F32.of_Z 0
           end
           metric)
        pp.
Proof.
  intros Hm Hi Hna Hx Hy.
  destruct (composite_cell _ _ _ _ _ _ _ _ x y Hm Hi Hx Hy)
    as (p & isAlpha & Hp & Halpha & ->).
  exists p. split; [done|].
  assert (isAlpha = false) as ->.
  { apply not_true_is_false. intros Ht. apply Halpha in Ht as [H1 H2].
    destruct Hna; contradiction. }
  by destruct (Image.channelsInGroup reference group !! i).
Qed.

Lemma composite_data_channel_witness :
  ∃ p, primarySample primaryRA EmptyString 0 (0, 0) = Some p ∧
    Channel.evalAt (Channel.make "R" 1 1 [F32.of_Z 16]) (0, 0)
    = applyPostProcessing
        (applyMetric p
           match Image.channelsInGroup referenceR EmptyString !! 0%nat with
           | Some _ =>
               let offset :=
                 centeringOffset (Image.size referenceR) (Image.size primaryRA) in
               referenceSample referenceR EmptyString 0
                 (0 + fst offset, 0 + snd offset)
           | None => F32.of_Z 0
           end
           Error)
        Square.
Proof.
  apply (composite_data_channel primaryRA referenceR EmptyString Error Square
           [Channel.make "R" 1 1 [F32.of_Z 16]; Channel.make "A" 1 1 [F32.of_Z 1]] 0).
  - reflexivity.
  - reflexivity.
  - right. discriminate.
  - simpl. lia.
  - simpl. lia.
Defined.

(** ** The statistics cache over a session *)

Lemma canvasStatistics_wellFormed canvas :
  cacheWellFormed canvas → cacheWellFormed (snd (canvasStatistics canvas)).
Proof.
  intros (Hsched & Hsize & Hkey & Hlazy). unfold canvasStatistics.
  destruct (mImage canvas) as [image|]; [|done].
  destruct (mMeanValues canvas !! canvasKey canvas image) eqn:Hk; [done|].
  split_and!; simpl.
  - rewrite length_app, Hsched. simpl. by rewrite Nat.add_1_r, seq_S.
  - rewrite map_size_insert_None by done. rewrite length_app. simpl. lia.
  - intros k h. rewrite lookup_insert. case_decide as Heq.
    + intros [= <-]. subst k. eexists. split.
      * rewrite lookup_app_r by lia. by rewrite Nat.sub_diag.
      * reflexivity.
    + intros Hh. destruct (Hkey k h Hh) as (r & Hr & Hrk).
      exists r. split; [|done]. by apply lookup_app_l_Some.
  - intros h r Hr. apply lookup_app_Some in Hr as [Hr|[Hlen Hr]].
    + pose proof (Hlazy h r Hr) as Hm.
      rewrite lookup_insert_ne; [done|]. intros Heq. by rewrite Heq, Hm in Hk.
    + apply list_lookup_singleton_Some in Hr as [Hz <-].
      replace h with (length (mLazies canvas)) by lia.
      apply lookup_insert_eq.
Qed.

Lemma requestAll_snoc canvas session p :
  requestAll canvas (session ++ [p])
  = snd (canvasStatistics (withParameters (requestAll canvas session) p)).
Proof. unfold requestAll. by rewrite foldl_app. Qed.

(** X11.  After any sequence of requests on a canvas that starts with an
    empty cache, every cache entry has a [Lazy] object of its own whose
    captured parameters have the entry's key, and every [Lazy] object was
    scheduled for computation exactly once: there are as many scheduled
    computations as cache entries. *)
Theorem session_cache_wellFormed (session : list RequestParameters) :
  let canvas := requestAll (emptyCanvas None) session in
  cacheWellFormed canvas ∧
  NoDup (mScheduled canvas) ∧
  length (mScheduled canvas) = size (mMeanValues canvas).
Proof.
  assert (cacheWellFormed (requestAll (emptyCanvas None) session)) as Hwf.
  { induction session as [|p session IH] using rev_ind.
    - split_and!; simpl; [done | done | |].
      + intros k h Hh. by rewrite lookup_empty in Hh.
      + intros h r Hr. by rewrite lookup_nil in Hr.
    - rewrite requestAll_snoc. apply canvasStatistics_wellFormed.
      destruct IH as (? & ? & ? & ?). by split_and!. }
  split; [done|]. destruct Hwf as (Hsched & Hsize & _).
  rewrite Hsched. split; [apply NoDup_seq|]. by rewrite length_seq.
Qed.

Lemma canvasStatistics_keeps canvas k h :
  mMeanValues canvas !! k = Some h →
  mMeanValues (snd (canvasStatistics canvas)) !! k = Some h ∧
  ∀ h' r, mLazies canvas !! h' = Some r →
          mLazies (snd (canvasStatistics canvas)) !! h' = Some r.
Proof.
  intros Hk. unfold canvasStatistics.
  destruct (mImage canvas) as [image|]; [|done].
  destruct (mMeanValues canvas !! canvasKey canvas image) eqn:Hmiss; [done|].
  simpl. split.
  - rewrite lookup_insert_ne; [done|]. intros Heq. by rewrite Heq, Hk in Hmiss.
  - intros h' r Hr. by apply lookup_app_l_Some.
Qed.

(** X12.  The cache only grows: an entry that is in the cache, and the
    parameters its [Lazy] object captured, are the same after any sequence
    of further requests. *)
Theorem session_keeps_entries canvas (session : list RequestParameters) k h :
  mMeanValues canvas !! k = Some h →
  mMeanValues (requestAll canvas session) !! k = Some h ∧
  ∀ h' r, mLazies canvas !! h' = Some r →
          mLazies (requestAll canvas session) !! h' = Some r.
Proof.
  intros Hk. induction session as [|p session IH] using rev_ind; [done|].
  rewrite requestAll_snoc. destruct IH as [IHk IHl].
  destruct (canvasStatistics_keeps
              (withParameters (requestAll canvas session) p) k h IHk)
    as [Hk' Hl'].
  split; [done|]. intros h' r Hr. apply Hl'. simpl. by apply IHl.
Qed.

Lemma session_keeps_entries_witness :
  mMeanValues
    (requestAll (snd (canvasStatistics (emptyCanvas (Some exampleImage))))
       [mkParameters (Some nanImage) None EmptyString Error Square true
          (0, 0) (1, 1);
        mkParameters (Some exampleImage) (Some nanImage) EmptyString Division
          Identity false (0, 0) (0, 0)])
    !! canvasKey (emptyCanvas (Some exampleImage)) exampleImage = Some 0%nat ∧
  ∀ h' r,
    mLazies (snd (canvasStatistics (emptyCanvas (Some exampleImage)))) !! h'
    = Some r →
    mLazies
      (requestAll (snd (canvasStatistics (emptyCanvas (Some exampleImage))))
         [mkParameters (Some nanImage) None EmptyString Error Square true
            (0, 0) (1, 1);
          mkParameters (Some exampleImage) (Some nanImage) EmptyString Division
            Identity false (0, 0) (0, 0)]) !! h'
    = Some r.
Proof.
  apply (session_keeps_entries
           (snd (canvasStatistics (emptyCanvas (Some exampleImage))))).
  vm_compute. reflexivity.
Defined.

(** ** The statistics key, continued *)

Lemma string_length_app (a b : string) :
  String.length (a +:+ b) = (String.length a + String.length b)%nat.
Proof.
  induction a as [|c a IH]; [done|].
  change (S (String.length (a +:+ b)) = S (String.length a + String.length b)).
  by rewrite IH.
Qed.

Lemma string_app_inv_tail (s1 s2 r : string) : s1 +:+ r = s2 +:+ r → s1 = s2.
Proof.
  revert s2. induction s1 as [|c s1 IH]; intros [|c' s2] H.
  - done.
  - apply (f_equal String.length) in H.
    rewrite (string_length_app (String c' s2)) in H.
    change (EmptyString +:+ r) with r in H. simpl in H. lia.
  - apply (f_equal String.length) in H.
    rewrite (string_length_app (String c s1)) in H.
    change (EmptyString +:+ r) with r in H. simpl in H. lia.
  - change (String c (s1 +:+ r) = String c' (s2 +:+ r)) in H.
    injection H as -> H. f_equal. by apply IH.
Qed.

Lemma pretty_app_inj (x x' : Z) (r : string) :
  pretty x +:+ r = pretty x' +:+ r → x = x'.
Proof. intros H. apply string_app_inv_tail in H. by apply (inj pretty) in H. Qed.

Lemma postProcessingId_inj p p' : postProcessingId p = postProcessingId p' → p = p'.
Proof. by destruct p, p'. Qed.


(** X13.  The key tells apart two requests that differ in one component
    only: in the post-processing, in the id of the image (with the same
    channel names), in the id of the reference, in whether a crop is set,
    or in one coordinate of the crop. *)
Theorem statisticsKey_separates image reference group metric pp isCropped
  cropMin cropMax :
  (∀ pp', pp ≠ pp' →
     statisticsKey image reference group metric pp isCropped cropMin cropMax
     ≠ statisticsKey image reference group metric pp' isCropped cropMin cropMax)
  ∧ (∀ image',
       Image.id image ≠ Image.id image' →
       Image.channelsInGroup image' group = Image.channelsInGroup image group →
       statisticsKey image reference group metric pp isCropped cropMin cropMax
       ≠ statisticsKey image' reference group metric pp isCropped cropMin cropMax)
  ∧ (∀ r r',
       Image.id r ≠ Image.id r' →
       statisticsKey image (Some r) group metric pp isCropped cropMin cropMax
       ≠ statisticsKey image (Some r') group metric pp isCropped cropMin cropMax)
  ∧ statisticsKey image reference group metric pp true cropMin cropMax
    ≠ statisticsKey image reference group metric pp false cropMin cropMax
  ∧ (∀ cropMin' cropMax',
       (fst cropMin ≠ fst cropMin' ∧ snd cropMin = snd cropMin' ∧ cropMax = cropMax')
       ∨ (fst cropMin = fst cropMin' ∧ snd cropMin ≠ snd cropMin' ∧ cropMax = cropMax')
       ∨ (cropMin = cropMin' ∧ fst cropMax ≠ fst cropMax' ∧ snd cropMax = snd cropMax')
       ∨ (cropMin = cropMin' ∧ fst cropMax = fst cropMax' ∧ snd cropMax ≠ snd cropMax') →
       statisticsKey image reference group metric pp true cropMin cropMax
       ≠ statisticsKey image reference group metric pp true cropMin' cropMax').
Proof.
  split_and!.
  - intros pp' Hne H. apply Hne, postProcessingId_inj.
    destruct reference; cancel_key string_app_assoc H; by apply pretty_app_inj in H.
  - intros image' Hne Hch H. apply Hne.
    unfold statisticsKey in H. rewrite Hch in H.
    destruct reference; rewrite ?string_app_assoc in H;
      by apply pretty_app_inj in H.
  - intros r r' Hne H. apply Hne. cancel_key string_app_assoc H. by apply pretty_app_inj in H.
  - intros H. destruct reference; cancel_key string_app_assoc H; discriminate H.
  - intros [x' y'] [X' Y'] Hcase H. destruct cropMin as [x y], cropMax as [X Y].
    simpl in Hcase.
    destruct Hcase as [(Hne & -> & [= -> ->]) | [(-> & Hne & [= -> ->])
                      | [([= -> ->] & Hne & ->) | ([= -> ->] & -> & Hne)]]];
      apply Hne; destruct reference; cancel_key string_app_assoc H; simpl in H;
      first [by apply pretty_app_inj in H | by apply (inj pretty) in H].
Qed.

Lemma statisticsKey_separates_witness :
  statisticsKey exampleImage None EmptyString Error Identity true (0, 0) (1, 2)
  ≠ statisticsKey exampleImage None EmptyString Error Identity true (0, 0) (1, 1).
Proof.
  apply (proj2 (proj2 (proj2 (proj2
           (statisticsKey_separates exampleImage None EmptyString Error Identity
              true (0, 0) (1, 2)))))).
  right. right. right. split_and!; [reflexivity | reflexivity | discriminate].
Defined.

(** ** Image requests of the command line and of other instances *)

Lemma lastIndexOf_None (s : cstring) (c : ascii) :
  c ∉ s → lastIndexOf s c = None.
Proof.
  induction s as [|a s IH]; [done|]. intros Hn.
  apply not_elem_of_cons in Hn as [Hne Hn]. simpl. rewrite (IH Hn).
  destruct (Ascii.eqb_spec a c); congruence.
Qed.

Lemma lastIndexOf_app (p s : cstring) (c : ascii) :
  c ∉ s → lastIndexOf (p ++ c :: s) c = Some (length p).
Proof.
  intros Hn. induction p as [|a p IH].
  - simpl. by rewrite (lastIndexOf_None _ _ Hn), Ascii.eqb_refl.
  - simpl. by rewrite IH.
Qed.

Lemma wrapSize_small (n : Z) : 0 ≤ n < 2 ^ 64 → wrapSize n = n.
Proof. intros. unfold wrapSize. by apply Z.mod_small. Qed.

(** The split of a sent string, for the proofs below. *)
Lemma splitImageString_message (absolutePath channelSelector : cstring) :
  ":"%char ∉ channelSelector →
  Z.of_nat (length (ipcMessage absolutePath channelSelector)) < 2 ^ 64 →
  splitImageString (ipcMessage absolutePath channelSelector)
  = Some (absolutePath, channelSelector).
Proof.
  intros Hn Hlen. unfold splitImageString, find_last_of.
  unfold ipcMessage in *. rewrite (lastIndexOf_app _ _ _ Hn).
  rewrite length_app in *. cbn [length] in *.
  rewrite (wrapSize_small (_ - 1)) by lia.
  rewrite Z.min_r by lia.
  rewrite wrapSize_small by lia.
  unfold substr. rewrite length_app. cbn [length].
  rewrite (proj2 (Z.ltb_ge _ _)) by lia.
  rewrite (proj2 (Z.ltb_ge _ _)) by lia.
  cbn [mbind option_bind]. f_equal. f_equal.
  - rewrite Z.min_l by lia. rewrite Nat2Z.id. change (Z.to_nat 0) with 0%nat.
    rewrite drop_0. by rewrite take_app_length.
  - replace (Z.to_nat (Z.of_nat (length absolutePath) + 1))
      with (length absolutePath + 1)%nat by lia.
    rewrite drop_app_add.
    change (drop 1 (":"%char :: channelSelector)) with channelSelector.
    apply take_ge. unfold npos. lia.
Qed.

(** X14.  The string that a secondary instance sends for an absolute path
    and a channel selector is split by the primary instance into that path
    and that selector, when the selector has no colon and the string is
    shorter than [2^64]; the path may have colons. *)
Theorem splitImageString_ipcMessage (absolutePath channelSelector : cstring) :
  ":"%char ∉ channelSelector →
  Z.of_nat (length (ipcMessage absolutePath channelSelector)) < 2 ^ 64 →
  splitImageString (ipcMessage absolutePath channelSelector)
  = Some (absolutePath, channelSelector).
Proof. apply splitImageString_message. Qed.

Lemma splitImageString_ipcMessage_witness :
  splitImageString
    (ipcMessage (list_ascii_of_string "C:/a.exr") (list_ascii_of_string "R,G"))
  = Some (list_ascii_of_string "C:/a.exr", list_ascii_of_string "R,G").
Proof.
  apply splitImageString_ipcMessage.
  - vm_compute. intros H. repeat (apply elem_of_cons in H as [H|H]; [discriminate H|]).
    by apply elem_of_nil in H.
  - vm_compute. reflexivity.
Defined.

(** X15.  A received string without a colon is enqueued without its last
    character and with an empty selector; the empty string is enqueued as
    it is.  Nothing is thrown. *)
Theorem splitImageString_without_colon (imageString : cstring) :
  ":"%char ∉ imageString →
  Z.of_nat (length imageString) < 2 ^ 64 →
  splitImageString imageString = Some (removelast imageString, []).
Proof.
  intros Hn Hlen. unfold splitImageString, find_last_of.
  rewrite (lastIndexOf_None _ _ Hn).
  destruct (decide (imageString = [])) as [->|Hne].
  - reflexivity.
  - assert (0 < length imageString)%nat by (destruct imageString; [done | simpl; lia]).
    rewrite (wrapSize_small (_ - 1)) by lia.
    rewrite Z.min_l by (unfold npos; lia).
    rewrite wrapSize_small by lia.
    unfold substr.
    rewrite (proj2 (Z.ltb_ge _ _)) by lia.
    rewrite (proj2 (Z.ltb_ge _ _)) by lia.
    cbn [mbind option_bind]. f_equal. f_equal.
    + rewrite Z.min_l by lia. change (Z.to_nat 0) with 0%nat. rewrite drop_0.
      replace (Z.to_nat (Z.of_nat (length imageString) - 1))
        with (length imageString - 1)%nat by lia.
      destruct (exists_last Hne) as (front & a & ->).
      rewrite removelast_last, length_app. simpl.
      replace (length front + 1 - 1)%nat with (length front) by lia.
      by rewrite take_app_length.
    + replace (Z.of_nat (length imageString) - 1 + 1)
        with (Z.of_nat (length imageString)) by lia.
      rewrite Nat2Z.id, drop_all. by rewrite take_nil.
Qed.

Lemma splitImageString_without_colon_witness :
  splitImageString (list_ascii_of_string "a.exr")
  = Some (list_ascii_of_string "a.ex", []).
Proof.
  apply (splitImageString_without_colon (list_ascii_of_string "a.exr")).
  - vm_compute. intros H. repeat (apply elem_of_cons in H as [H|H]; [discriminate H|]).
    by apply elem_of_nil in H.
  - vm_compute. reflexivity.
Defined.

Lemma foldl_enqueueStep_files channelSelector queue (files : list cstring) :
  forallb (fun f => negb (isSelector f)) files = true →
  foldl enqueueStep (channelSelector, queue) files
  = (channelSelector, queue ++ ((fun f => (f, channelSelector)) <$> files)).
Proof.
  revert queue. induction files as [|f files IH]; intros queue Hall.
  - simpl. by rewrite app_nil_r.
  - simpl in Hall. apply andb_prop in Hall as [Hf Hall].
    simpl. destruct (isSelector f); [done|].
    rewrite IH by done. by rewrite <-app_assoc.
Qed.

Lemma foldl_enqueueStep_queue state queue (imageFiles : list cstring) :
  foldl enqueueStep (state, queue) imageFiles
  = (fst (foldl enqueueStep (state, []) imageFiles),
     queue ++ snd (foldl enqueueStep (state, []) imageFiles)).
Proof.
  revert state queue. induction imageFiles as [|f fs IH]; intros state queue.
  - simpl. by rewrite app_nil_r.
  - simpl. destruct (isSelector f).
    + apply IH.
    + rewrite IH. rewrite (IH state [_]). simpl. by rewrite <-app_assoc.
Qed.

(** X16.  An argument that starts with a colon is not enqueued; the image
    files that follow it, up to the next such argument, are enqueued in
    their order with the argument less its colon as the selector; what was
    enqueued before is not changed. *)
Theorem enqueueImageFiles_selector (before files : list cstring)
  (selector : cstring) :
  isSelector selector = true →
  forallb (fun f => negb (isSelector f)) files = true →
  enqueueImageFiles (before ++ selector :: files)
  = enqueueImageFiles before ++ ((fun f => (f, drop 1 selector)) <$> files).
Proof.
  intros Hs Hall. unfold enqueueImageFiles.
  rewrite foldl_app. simpl.
  destruct (foldl enqueueStep ([], []) before) as [state queue] eqn:E.
  simpl. rewrite Hs. by rewrite foldl_enqueueStep_files.
Qed.

Lemma enqueueImageFiles_selector_witness :
  enqueueImageFiles
    ([list_ascii_of_string "a.exr"] ++ list_ascii_of_string ":R"
       :: [list_ascii_of_string "b.exr"; list_ascii_of_string "c.exr"])
  = enqueueImageFiles [list_ascii_of_string "a.exr"]
    ++ ((fun f => (f, drop 1 (list_ascii_of_string ":R")))
          <$> [list_ascii_of_string "b.exr"; list_ascii_of_string "c.exr"]).
Proof.
  apply enqueueImageFiles_selector; reflexivity.
Defined.

(** X17.  The image files are enqueued in the order of the command line,
    and they are exactly the arguments that do not start with a colon;
    when no argument starts with a colon every file is enqueued with the
    empty selector. *)
Theorem enqueueImageFiles_files (imageFiles : list cstring) :
  (enqueueImageFiles imageFiles).*1
  = List.filter (fun f => negb (isSelector f)) imageFiles
  ∧ (forallb (fun f => negb (isSelector f)) imageFiles = true →
     enqueueImageFiles imageFiles = (fun f => (f, [])) <$> imageFiles).
Proof.
  split.
  - unfold enqueueImageFiles. generalize (@nil ascii) as state.
    induction imageFiles as [|f fs IH]; intros state; [done|].
    simpl. destruct (isSelector f); simpl.
    + apply IH.
    + rewrite foldl_enqueueStep_queue. simpl. f_equal. apply IH.
  - intros Hall. unfold enqueueImageFiles.
    by rewrite foldl_enqueueStep_files.
Qed.

Lemma enqueueImageFiles_files_witness :
  enqueueImageFiles [list_ascii_of_string "a.exr"; list_ascii_of_string "b.exr"]
  = [(list_ascii_of_string "a.exr", []); (list_ascii_of_string "b.exr", [])].
Proof.
  apply (proj2 (enqueueImageFiles_files
                  [list_ascii_of_string "a.exr"; list_ascii_of_string "b.exr"])).
  reflexivity.
Defined.

(** X18.  The lines of the standard input are treated as the arguments of
    the command line are, after the empty lines are left out. *)
Theorem enqueueLines_nonempty (lines : list cstring) :
  enqueueLines lines
  = enqueueImageFiles (List.filter (fun l => negb (bool_decide (l = []))) lines).
Proof.
  unfold enqueueLines, enqueueImageFiles.
  generalize (@nil ascii, @nil (cstring * cstring)) as state.
  induction lines as [|l ls IH]; intros state; [done|].
  simpl. destruct l as [|c l]; simpl; apply IH.
Qed.

Lemma secondary_to_primary_state make_absolute (imageFiles : list cstring) :
  (∀ a, a ∈ imageFiles → isSelector a = true → ":"%char ∉ drop 1 a) →
  (∀ m, m ∈ sendImageFiles make_absolute imageFiles →
        Z.of_nat (length m) < 2 ^ 64) →
  fst (foldl (sendStep make_absolute) ([], []) imageFiles)
  = fst (foldl enqueueStep ([], []) imageFiles)
  ∧ (":"%char ∉ fst (foldl enqueueStep ([], []) imageFiles))
  ∧ Forall2 (fun m request => splitImageString m = Some request)
      (sendImageFiles make_absolute imageFiles)
      (absolutePaths make_absolute (enqueueImageFiles imageFiles)).
Proof.
  unfold sendImageFiles, enqueueImageFiles, absolutePaths.
  induction imageFiles as [|a imageFiles IH] using rev_ind; intros Hsel Hlen.
  - split_and!; [done | apply not_elem_of_nil | constructor].
  - rewrite !foldl_app in *. simpl in *.
    destruct (foldl (sendStep make_absolute) ([], []) imageFiles)
      as [selector sent] eqn:Es.
    destruct (foldl enqueueStep ([], []) imageFiles) as [selector' queue] eqn:Eq.
    simpl in *.
    destruct (isSelector a) eqn:Ea.
    + destruct IH as (-> & Hn & Hall).
      { intros b Hb. apply Hsel. apply elem_of_app. by left. }
      { done. }
      simpl. split_and!; [done | | done].
      apply Hsel; [|done]. apply elem_of_app. right. by apply list_elem_of_singleton.
    + destruct (make_absolute a) as [absolutePath|] eqn:Eabs; simpl in *.
      * destruct IH as (-> & Hn & Hall).
        { intros b Hb. apply Hsel. apply elem_of_app. by left. }
        { intros m Hm. apply Hlen. apply elem_of_app. by left. }
        split_and!; [done | done |].
        rewrite omap_app. apply Forall2_app; [done|].
        simpl. rewrite Eabs. simpl. constructor; [|constructor].
        apply splitImageString_message; [done|].
        apply Hlen. apply elem_of_app. right. by apply list_elem_of_singleton.
      * destruct IH as (-> & Hn & Hall).
        { intros b Hb. apply Hsel. apply elem_of_app. by left. }
        { done. }
        split_and!; [done | done |].
        rewrite omap_app. simpl. rewrite Eabs. simpl. by rewrite app_nil_r.
Qed.

(** X19.  What the primary instance enqueues for the strings that a
    secondary instance sends for its arguments is what the command-line
    loop enqueues for these arguments, with every path made absolute and
    the files left out whose path cannot be made absolute; when no selector
    has a colon after its first character and every string sent is shorter
    than [2^64]. *)
Theorem secondary_to_primary make_absolute (imageFiles : list cstring) :
  (∀ a, a ∈ imageFiles → isSelector a = true → ":"%char ∉ drop 1 a) →
  (∀ m, m ∈ sendImageFiles make_absolute imageFiles →
        Z.of_nat (length m) < 2 ^ 64) →
  receiveImageStrings (sendImageFiles make_absolute imageFiles)
  = Some (absolutePaths make_absolute (enqueueImageFiles imageFiles)).
Proof.
  intros Hsel Hlen. apply mapM_Some.
  by apply secondary_to_primary_state.
Qed.

Lemma secondary_to_primary_witness :
  receiveImageStrings
    (sendImageFiles (fun f : cstring => Some ("/"%char :: f))
       [list_ascii_of_string "a.exr"; list_ascii_of_string ":R";
        list_ascii_of_string "b.exr"])
  = Some (absolutePaths (fun f : cstring => Some ("/"%char :: f))
            (enqueueImageFiles
               [list_ascii_of_string "a.exr"; list_ascii_of_string ":R";
                list_ascii_of_string "b.exr"])).
Proof.
  apply (secondary_to_primary (fun f : cstring => Some ("/"%char :: f))
           [list_ascii_of_string "a.exr"; list_ascii_of_string ":R";
            list_ascii_of_string "b.exr"]).
  - intros a Ha Hs.
    repeat (apply elem_of_cons in Ha as [->|Ha]; [try discriminate Hs|]).
    + vm_compute. intros H.
      repeat (apply elem_of_cons in H as [H|H]; [discriminate H|]).
      by apply elem_of_nil in H.
    + by apply elem_of_nil in Ha.
  - intros m Hm. vm_compute in Hm.
    repeat (apply elem_of_cons in Hm as [->|Hm]; [vm_compute; reflexivity|]).
    by apply elem_of_nil in Hm.
Defined.
